(** * nmpc_pkg/controller_node.py: the NMPC node's tracking logic

    A shallow embedding of [NMPCNode] (nearest-point search, horizon
    windowing, angle unwrapping, the control tick and the odometry
    callback) together with the properties of its specification.

    Numbers.  The node computes with IEEE doubles through numpy.  A
    finite double is the real number it stands for ([R]); NaN, infinities
    and signed zeros are outside the model.  Which index the
    nearest-point search returns depends on how its costs round, so the
    search is computed with the double-precision operations of class
    [Doubles], whose rounding is left open: what is proved of the search
    holds for every such arithmetic, the exact one included.  Elsewhere
    (horizon unwrapping, yaw extraction, unwrapping of the current state)
    rounding only perturbs values, and the numpy functions are written
    out over [R] in module [Np] from numpy's reference behaviour.

    Python objects.  An attribute that is assigned only later in the
    node's life is an [option]: reading it while it is [None] raises
    [AttributeError], as in Python.  Every method runs in the monad [M]
    (node state, an exception or a value, and the trace of the effects the
    method performed: console output, solver calls, published commands and
    datagrams). *)

From Stdlib Require Import Reals Lra Lia Psatz ZArith Bool Ascii String Arith List.
Import ListNotations.

Open Scope R_scope.

(* ================================================================= *)
(** ** numpy over the reals *)

Module Np.

Definition ltb (x y : R) : bool := if Rlt_dec x y then true else false.
Definition leb (x y : R) : bool := if Rle_dec x y then true else false.
Definition eqb (x y : R) : bool := if Req_dec_T x y then true else false.

(** [np.arctan2(y, x)]: the angle of the point (x, y), in (-pi, pi]. *)
Definition arctan2 (y x : R) : R :=
  if ltb 0 x then atan (y / x)
  else if ltb x 0 then
    (if leb 0 y then atan (y / x) + PI else atan (y / x) - PI)
  else if ltb 0 y then PI / 2
  else if ltb y 0 then - PI / 2
  else 0.

(** [np.mod(a, b)] on floats with [b > 0]: the floored remainder. *)
Definition mod_ (a b : R) : R := a - b * IZR (Int_part (a / b)).

(** [np.diff(p)]: [p[i+1] - p[i]]. *)
Fixpoint diff (p : list R) : list R :=
  match p with
  | a :: ((b :: _) as t) => (b - a) :: diff t
  | _ => []
  end.

(** [a.cumsum()] *)
Fixpoint cumsum_from (acc : R) (l : list R) : list R :=
  match l with
  | [] => []
  | x :: t => (acc + x) :: cumsum_from (acc + x) t
  end.

Definition cumsum (l : list R) : list R := cumsum_from 0 l.

(** Elementwise sum of two arrays of the same length. *)
Fixpoint add (a b : list R) : list R :=
  match a, b with
  | x :: a', y :: b' => (x + y) :: add a' b'
  | _, _ => []
  end.

(** The phase correction [np.unwrap] computes for one difference [dd]
    (period [2*pi], [discont = period/2], float dtype, so the boundary is
    ambiguous and [-pi] is moved to [+pi] when [dd > 0]). *)
Definition ph_correct (dd : R) : R :=
  let period := 2 * PI in
  let discont := period / 2 in
  let interval_high := period / 2 in
  let interval_low := - interval_high in
  let ddmod := mod_ (dd - interval_low) period + interval_low in
  let ddmod :=
    if eqb ddmod interval_low && ltb 0 dd then interval_high else ddmod in
  if ltb (Rabs dd) discont then 0 else ddmod - dd.

(** [np.unwrap(p)]:
    [up = copy(p); up[1:] = p[1:] + cumsum(ph_correct(diff(p)))]. *)
Definition unwrap (p : list R) : list R :=
  match p with
  | [] => []
  | p0 :: rest => p0 :: add rest (cumsum (map ph_correct (diff p)))
  end.

(** [np.argmin(a)]: the first index of the least element; [ValueError]
    ([None]) on an empty array. *)
Fixpoint argmin_from (best_i : nat) (best : R) (i : nat) (l : list R) : nat :=
  match l with
  | [] => best_i
  | x :: t =>
      if ltb x best then argmin_from i x (S i) t
      else argmin_from best_i best (S i) t
  end.

Definition argmin (l : list R) : option nat :=
  match l with
  | [] => None
  | x :: t => Some (argmin_from 0 x 1 t)
  end.

(** [np.tile(row, (n, 1))]: [n] copies of [row]. *)
Definition tile {A : Type} (row : A) (n : nat) : list A := repeat row n.

End Np.

(* ================================================================= *)
(** ** Double-precision arithmetic *)

(** The float64 operations behind the nearest-point search.  Comparison,
    negation and absolute value of doubles are exact, so they are the
    ones of [R]; the operations that round ([+ - * /], [np.mod],
    [np.sqrt], [np.sin], [np.cos], [np.arctan2]), the double [np.pi] and
    the double of the literal [0.2] are fields.  Two facts of IEEE
    arithmetic are all that is assumed of them: adding zero is exact, and
    [arctan2] answers within [-np.pi, np.pi], which lies inside
    (-pi, pi]. *)
Class Doubles : Type := {
  fl_add : R -> R -> R;
  fl_sub : R -> R -> R;
  fl_mul : R -> R -> R;
  fl_div : R -> R -> R;
  fl_mod : R -> R -> R;
  fl_sqrt : R -> R;
  fl_sin : R -> R;
  fl_cos : R -> R;
  fl_arctan2 : R -> R -> R;
  fl_pi : R;
  fl_weight : R;
  fl_add_0_r : forall x, fl_add x 0 = x;
  fl_arctan2_range : forall y x, - PI < fl_arctan2 y x <= PI
}.

(** The numpy functions of the search, in double precision. *)
Module Fl.

Section Ops.

Context {FP : Doubles}.

(** [np.linalg.norm] of the 2-vector [(dx, dy)]:
    [sqrt(dx*dx + dy*dy)]. *)
Definition norm2 (dx dy : R) : R :=
  fl_sqrt (fl_add (fl_mul dx dx) (fl_mul dy dy)).

(** [np.diff(p)] *)
Fixpoint diff (p : list R) : list R :=
  match p with
  | a :: ((b :: _) as t) => fl_sub b a :: diff t
  | _ => []
  end.

(** [a.cumsum()]: the first entry is [a[0]] itself, every later one adds
    to the running sum. *)
Fixpoint cumsum_from (acc : R) (l : list R) : list R :=
  match l with
  | [] => []
  | x :: t => fl_add acc x :: cumsum_from (fl_add acc x) t
  end.

Definition cumsum (l : list R) : list R :=
  match l with
  | [] => []
  | x :: t => x :: cumsum_from x t
  end.

(** Elementwise sum of two arrays of the same length. *)
Fixpoint add (a b : list R) : list R :=
  match a, b with
  | x :: a', y :: b' => fl_add x y :: add a' b'
  | _, _ => []
  end.

(** The phase correction of [np.unwrap] for one difference [dd], with
    [period = 2*pi] and [discont = period/2] as numpy computes them. *)
Definition ph_correct (dd : R) : R :=
  let period := fl_mul 2 fl_pi in
  let discont := fl_div period 2 in
  let interval_high := fl_div period 2 in
  let interval_low := - interval_high in
  let ddmod := fl_add (fl_mod (fl_sub dd interval_low) period) interval_low in
  let ddmod :=
    if Np.eqb ddmod interval_low && Np.ltb 0 dd then interval_high else ddmod in
  if Np.ltb (Rabs dd) discont then 0 else fl_sub ddmod dd.

(** [np.unwrap(p)] *)
Definition unwrap (p : list R) : list R :=
  match p with
  | [] => []
  | p0 :: rest => p0 :: add rest (cumsum (map ph_correct (diff p)))
  end.

End Ops.

End Fl.

(** Exact arithmetic is one such arithmetic. *)
#[export, refine] Instance exact_arithmetic : Doubles := {|
  fl_add := Rplus;
  fl_sub := Rminus;
  fl_mul := Rmult;
  fl_div := Rdiv;
  fl_mod := Np.mod_;
  fl_sqrt := sqrt;
  fl_sin := sin;
  fl_cos := cos;
  fl_arctan2 := Np.arctan2;
  fl_pi := PI;
  fl_weight := 2 / 10
|}.
Proof.
  - exact Rplus_0_r.
  - intros y x. unfold Np.arctan2, Np.ltb, Np.leb.
    pose proof (atan_bound (y / x)) as Hb. pose proof PI_RGT_0 as Hpi.
    destruct (Rlt_dec 0 x); [lra|].
    destruct (Rlt_dec x 0) as [Hx|].
    + assert (Hinv : / x < 0) by (apply Rinv_lt_0_compat; lra).
      destruct (Rle_dec 0 y).
      * assert (y / x <= 0) by (unfold Rdiv; nra).
        assert (atan (y / x) <= 0).
        { destruct (Req_dec (y / x) 0) as [->|]; [rewrite atan_0; lra|].
          pose proof (atan_increasing (y / x) 0). rewrite atan_0 in *. lra. }
        lra.
      * assert (0 < y / x) by (unfold Rdiv; nra).
        pose proof (atan_increasing 0 (y / x)). rewrite atan_0 in *. lra.
    + destruct (Rlt_dec 0 y); [lra|]. destruct (Rlt_dec y 0); lra.
Defined.

(* ================================================================= *)
(** ** Data *)

(** A row [[x, y, theta]] of the reference trajectory, and the robot
    state the odometry callback stores. *)
Record Pose : Type := mkPose { px : R; py : R; ptheta : R }.

(** A control [[v, w]]: linear and angular velocity. *)
Definition Control : Type := (R * R)%type.

Record Quaternion : Type := mkQuat { qx : R; qy : R; qz : R; qw : R }.

(** The fields of [nav_msgs/Odometry] the node reads. *)
Record Odometry : Type := mkOdom {
  position_x : R;
  position_y : R;
  orientation : Quaternion
}.

(** The declared ROS parameters. *)
Record Params : Type := mkParams {
  rate : R;
  min_v : R;
  max_v : R;
  min_w : R;
  max_w : R
}.

Inductive Exn : Type :=
| AttributeError (attr : string)
| TypeError
| IndexError
| ValueError
| StopIteration
| ZeroDivisionError
| OSError.

Inductive Res (A : Type) : Type :=
| Ok (a : A)
| Raise (e : Exn).
Arguments Ok {A} a.
Arguments Raise {A} e.

(** The JSON datagram [send_data] builds. *)
Record Payload : Type := mkPayload {
  actual_x : R;
  actual_y : R;
  forecast_x : list R;
  forecast_y : list R;
  closest_x : R;
  closest_y : R;
  optimisation_time : R
}.

(** What a method does to the outside world. *)
Inductive Event : Type :=
| PrintStop                                   (* print('Stop') *)
| PrintReturnToStart                          (* print('Return to start') *)
| PrintIndex (i : nat)                        (* print('Index: ', i) *)
| PrintControl (u : Control)                  (* print(self.optimal_control) *)
| LogInfo (msg : string)                      (* get_logger().info(msg) *)
| SolveCall (x0 : Pose) (ref : list Pose) (uref : list Control)
| Publish (v w : R)                           (* cmd_vel_pub.publish *)
| SendTo (data : Payload).                    (* socket.sendto *)

(** The imported [Controller] class (controller_class.py is not part of
    the sources): its constructor, the attribute [N], [solve], and the
    attribute [next_states] when the object has one. *)
Class ControllerClass (C : Type) : Type := {
  ctrl_init : R -> R -> R -> R -> nat -> R -> C;
  ctrl_N : C -> nat;
  ctrl_solve : C -> Pose -> list Pose -> list Control -> C * Control;
  ctrl_next_states : C -> option (list Pose)
}.

(** The class constant [NMPCNode.PATH_TYPE] as the source sets it. *)
Definition PATH_TYPE_default : string := "repeat"%string.

(* ================================================================= *)
(** ** The node object *)

Section Node.

Context {C : Type} {CC : ControllerClass C}.

Record Node : Type := mkNode {
  PATH_TYPE : string;                    (* class attribute *)
  params : Params;
  current_state : option Pose;           (* None until a pose is accepted *)
  previous_control : Control;
  reference_trajectory : list Pose;
  initial_position_received : bool;
  initial_position : option Pose;
  x_position : option R;                 (* unset until the first callback *)
  y_position : option R;
  yaw : option R;
  odom_received : option bool;           (* unset until a pose is accepted *)
  controller : option C;                 (* unset until _init_controller *)
  path_type : option string;
  stop : option bool;
  optimal_control : option Control;      (* unset until the first solve *)
  time_taken : option R
}.

Definition set_current_state (v : option Pose) (s : Node) : Node :=
  mkNode (PATH_TYPE s) (params s) v (previous_control s)
    (reference_trajectory s) (initial_position_received s)
    (initial_position s) (x_position s) (y_position s) (yaw s)
    (odom_received s) (controller s) (path_type s) (stop s)
    (optimal_control s) (time_taken s).

Definition set_initial_position_received (v : bool) (s : Node) : Node :=
  mkNode (PATH_TYPE s) (params s) (current_state s) (previous_control s)
    (reference_trajectory s) v
    (initial_position s) (x_position s) (y_position s) (yaw s)
    (odom_received s) (controller s) (path_type s) (stop s)
    (optimal_control s) (time_taken s).

Definition set_initial_position (v : option Pose) (s : Node) : Node :=
  mkNode (PATH_TYPE s) (params s) (current_state s) (previous_control s)
    (reference_trajectory s) (initial_position_received s)
    v (x_position s) (y_position s) (yaw s)
    (odom_received s) (controller s) (path_type s) (stop s)
    (optimal_control s) (time_taken s).

Definition set_x_position (v : option R) (s : Node) : Node :=
  mkNode (PATH_TYPE s) (params s) (current_state s) (previous_control s)
    (reference_trajectory s) (initial_position_received s)
    (initial_position s) v (y_position s) (yaw s)
    (odom_received s) (controller s) (path_type s) (stop s)
    (optimal_control s) (time_taken s).

Definition set_y_position (v : option R) (s : Node) : Node :=
  mkNode (PATH_TYPE s) (params s) (current_state s) (previous_control s)
    (reference_trajectory s) (initial_position_received s)
    (initial_position s) (x_position s) v (yaw s)
    (odom_received s) (controller s) (path_type s) (stop s)
    (optimal_control s) (time_taken s).

Definition set_yaw (v : option R) (s : Node) : Node :=
  mkNode (PATH_TYPE s) (params s) (current_state s) (previous_control s)
    (reference_trajectory s) (initial_position_received s)
    (initial_position s) (x_position s) (y_position s) v
    (odom_received s) (controller s) (path_type s) (stop s)
    (optimal_control s) (time_taken s).

Definition set_odom_received (v : option bool) (s : Node) : Node :=
  mkNode (PATH_TYPE s) (params s) (current_state s) (previous_control s)
    (reference_trajectory s) (initial_position_received s)
    (initial_position s) (x_position s) (y_position s) (yaw s)
    v (controller s) (path_type s) (stop s)
    (optimal_control s) (time_taken s).

Definition set_controller (v : option C) (s : Node) : Node :=
  mkNode (PATH_TYPE s) (params s) (current_state s) (previous_control s)
    (reference_trajectory s) (initial_position_received s)
    (initial_position s) (x_position s) (y_position s) (yaw s)
    (odom_received s) v (path_type s) (stop s)
    (optimal_control s) (time_taken s).

Definition set_path_type (v : option string) (s : Node) : Node :=
  mkNode (PATH_TYPE s) (params s) (current_state s) (previous_control s)
    (reference_trajectory s) (initial_position_received s)
    (initial_position s) (x_position s) (y_position s) (yaw s)
    (odom_received s) (controller s) v (stop s)
    (optimal_control s) (time_taken s).

Definition set_stop (v : option bool) (s : Node) : Node :=
  mkNode (PATH_TYPE s) (params s) (current_state s) (previous_control s)
    (reference_trajectory s) (initial_position_received s)
    (initial_position s) (x_position s) (y_position s) (yaw s)
    (odom_received s) (controller s) (path_type s) v
    (optimal_control s) (time_taken s).

Definition set_optimal_control (v : option Control) (s : Node) : Node :=
  mkNode (PATH_TYPE s) (params s) (current_state s) (previous_control s)
    (reference_trajectory s) (initial_position_received s)
    (initial_position s) (x_position s) (y_position s) (yaw s)
    (odom_received s) (controller s) (path_type s) (stop s)
    v (time_taken s).

Definition set_time_taken (v : option R) (s : Node) : Node :=
  mkNode (PATH_TYPE s) (params s) (current_state s) (previous_control s)
    (reference_trajectory s) (initial_position_received s)
    (initial_position s) (x_position s) (y_position s) (yaw s)
    (odom_received s) (controller s) (path_type s) (stop s)
    (optimal_control s) v.

(* ----------------------------------------------------------------- *)
(** *** The method monad: state, exception, trace *)

Definition M (A : Type) : Type := Node -> Res A * Node * list Event.

Definition ret {A : Type} (a : A) : M A := fun s => (Ok a, s, []).

Definition bind {A B : Type} (m : M A) (k : A -> M B) : M B :=
  fun s =>
    match m s with
    | (Ok a, s1, t1) =>
        match k a s1 with
        | (r, s2, t2) => (r, s2, t1 ++ t2)
        end
    | (Raise e, s1, t1) => (Raise e, s1, t1)
    end.

Definition raise {A : Type} (e : Exn) : M A := fun s => (Raise e, s, []).
Definition get : M Node := fun s => (Ok s, s, []).
Definition modify (f : Node -> Node) : M unit := fun s => (Ok tt, f s, []).
Definition emit (e : Event) : M unit := fun s => (Ok tt, s, [e]).

(** Reading an attribute that may not have been assigned yet. *)
Definition attr {A : Type} (name : string) (f : Node -> option A) : M A :=
  fun s =>
    match f s with
    | Some a => (Ok a, s, [])
    | None => (Raise (AttributeError name), s, [])
    end.

(** Subscripting a value that may be [None]. *)
Definition subscriptable {A : Type} (v : option A) : M A :=
  match v with
  | Some a => ret a
  | None => raise TypeError
  end.

Definition lift {A : Type} (r : Res A) : M A :=
  match r with
  | Ok a => ret a
  | Raise e => raise e
  end.

End Node.

Arguments Node C : clear implicits.
Arguments M C A : clear implicits.

Declare Scope method_scope.
Delimit Scope method_scope with method.
Notation "x <- m ;; k" := (bind m (fun x => k))
  (at level 61, m at next level, right associativity) : method_scope.
Notation "m ;; k" := (bind m (fun _ => k))
  (at level 61, right associativity) : method_scope.

(* ================================================================= *)
(** ** The methods of [NMPCNode] *)

(** [load_trajectory]: the rows [csv.reader] yields for the file, each a
    list of cells; [float] is Python's conversion of a cell.  The first
    row is consumed by [next(csv_reader)]; every later row is unpacked
    into exactly three floats. *)
Section Load.

Variable float : string -> option R.

Definition parse_row (row : list string) : Res Pose :=
  match row with
  | [a; b; c] =>
      match float a, float b, float c with
      | Some x, Some y, Some theta => Ok (mkPose x y theta)
      | _, _, _ => Raise ValueError
      end
  | _ => Raise ValueError
  end.

Fixpoint parse_rows (rows : list (list string)) : Res (list Pose) :=
  match rows with
  | [] => Ok []
  | row :: rest =>
      match parse_row row with
      | Ok p =>
          match parse_rows rest with
          | Ok ps => Ok (p :: ps)
          | Raise e => Raise e
          end
      | Raise e => Raise e
      end
  end.

Definition load_trajectory (csv_rows : list (list string)) : Res (list Pose) :=
  match csv_rows with
  | [] => Raise StopIteration
  | _header :: rows => parse_rows rows
  end.

End Load.

(** [scale_N] *)
Definition scale_N (trajectory : list Pose) : nat :=
  let trajectory_length := length trajectory in
  if (trajectory_length <? 500)%nat then 10%nat
  else (trajectory_length / 50)%nat.

(** [euler_from_quaternion] *)
Definition euler_from_quaternion (q : Quaternion) : R * R * R :=
  let x := qx q in
  let y := qy q in
  let z := qz q in
  let w := qw q in
  let sinr_cosp := 2 * (w * x + y * z) in
  let cosr_cosp := 1 - 2 * (x * x + y * y) in
  let roll := Np.arctan2 sinr_cosp cosr_cosp in
  let sinp := 2 * (w * y - z * x) in
  let pitch := asin sinp in
  let siny_cosp := 2 * (w * z + x * y) in
  let cosy_cosp := 1 - 2 * (y * y + z * z) in
  let yaw := Np.arctan2 siny_cosp cosy_cosp in
  (roll, pitch, yaw).

(** Lines 156-168 of [find_closest_point_index]: the cost of every
    reference point for the state [current_state], each numpy operation
    in double precision. *)
Definition cost_vector {FP : Doubles} (reference_trajectory : list Pose)
    (current_state : Pose) : list R :=
  let yaw := ptheta current_state in
  let distances :=
    map (fun q => Fl.norm2 (fl_sub (px q) (px current_state))
                           (fl_sub (py q) (py current_state)))
        reference_trajectory in
  let ref_angles := Fl.unwrap (map ptheta reference_trajectory) in
  let angle_diffs :=
    map (fun a => Rabs (fl_arctan2 (fl_sin (fl_sub a yaw))
                                   (fl_cos (fl_sub a yaw))))
        ref_angles in
  let weight := fl_weight in
  Fl.add distances (map (fun d => fl_mul weight d) angle_diffs).

(** Line 171: [closest_index = np.argmin(cost)]; doubles compare
    exactly. *)
Definition closest_index {FP : Doubles} (reference_trajectory : list Pose)
    (current_state : Pose) : option nat :=
  Np.argmin (cost_vector reference_trajectory current_state).

(** The loop of [reference_trajectory_N]: [N + 1] rows taken cyclically
    from [closest_index] on. *)
Definition window (reference_trajectory : list Pose) (closest_index N : nat)
    : list Pose :=
  let total_points := length reference_trajectory in
  map (fun i => nth ((closest_index + i) mod total_points)
                    reference_trajectory (mkPose 0 0 0))
      (seq 0 (N + 1)).

(** [ref_traj[:, 2] = column]. *)
Fixpoint assign_theta (ref_traj : list Pose) (column : list R) : list Pose :=
  match ref_traj, column with
  | p :: ps, th :: ths => mkPose (px p) (py p) th :: assign_theta ps ths
  | _, _ => []
  end.

Definition horizon (reference_trajectory : list Pose) (closest_index N : nat)
    : list Pose :=
  let ref_traj := window reference_trajectory closest_index N in
  assign_theta ref_traj (Np.unwrap (map ptheta ref_traj)).

(** [unwrap_current_state] *)
Definition unwrap_current_state (current_state : option Pose)
    (ref_trajectory : list Pose) : Res Pose :=
  match ref_trajectory with
  | [] => Raise IndexError
  | r0 :: _ =>
      let ref_angle := ptheta r0 in
      match current_state with
      | None => Raise TypeError
      | Some cs =>
          let current_angle := ptheta cs in
          let diff := current_angle - ref_angle in
          let current_angle :=
            if Np.ltb PI (Rabs diff) then
              if Np.ltb 0 diff then current_angle - 2 * PI
              else current_angle + 2 * PI
            else current_angle in
          Ok (mkPose (px cs) (py cs) current_angle)
      end
  end.

Section Methods.

Context {C : Type} {CC : ControllerClass C} {FP : Doubles}.

Local Open Scope method_scope.

(** [odom_callback] *)
Definition odom_callback (msg : Odometry) : M C unit :=
  modify (set_x_position (Some (position_x msg))) ;;
  modify (set_y_position (Some (position_y msg))) ;;
  x <- attr "x_position" x_position ;;
  y <- attr "y_position" y_position ;;
  if Np.eqb x 0 && Np.eqb y 0 then ret tt
  else
    let '(_, _, yaw_) := euler_from_quaternion (orientation msg) in
    modify (set_yaw (Some yaw_)) ;;
    modify (set_current_state (Some (mkPose x y yaw_))) ;;
    s <- get ;;
    (if negb (initial_position_received s) then
       modify (set_initial_position (current_state s)) ;;
       modify (set_initial_position_received true)
     else ret tt) ;;
    modify (set_odom_received (Some true)).

(** [find_closest_point_index] *)
Definition find_closest_point_index (current_state : option Pose)
    : M C nat :=
  cs <- subscriptable current_state ;;
  s <- get ;;
  match reference_trajectory s with
  | [] => raise IndexError
  | _ :: _ =>
      match closest_index (reference_trajectory s) cs with
      | None => raise ValueError
      | Some closest =>
          c <- attr "controller" controller ;;
          if (Z.of_nat (length (reference_trajectory s)) - Z.of_nat (ctrl_N c)
              <=? Z.of_nat closest)%Z
          then
            pt <- attr "path_type" path_type ;;
            if String.eqb pt "stop" then
              emit PrintStop ;;
              modify (set_stop (Some true)) ;;
              emit (PrintIndex closest) ;;
              ret closest
            else if String.eqb pt "repeat" then
              emit PrintReturnToStart ;;
              ret 1%nat
            else
              emit (PrintIndex closest) ;;
              ret closest
          else
            emit (PrintIndex closest) ;;
            ret closest
      end
  end.

(** [reference_trajectory_N] *)
Definition reference_trajectory_N : M C (list Pose) :=
  s <- get ;;
  closest <- find_closest_point_index (current_state s) ;;
  c <- attr "controller" controller ;;
  let N := ctrl_N c in
  s <- get ;;
  let total_points := length (reference_trajectory s) in
  if (total_points =? 0)%nat then raise ZeroDivisionError
  else ret (horizon (reference_trajectory s) closest N).

(** [send_data] *)
Definition send_data : M C unit :=
  s <- get ;;
  closest <- find_closest_point_index (current_state s) ;;
  s <- get ;;
  match nth_error (reference_trajectory s) closest with
  | None => raise IndexError
  | Some closest_point =>
      cs <- subscriptable (current_state s) ;;
      c <- attr "controller" controller ;;
      let forecast :=
        match ctrl_next_states c with
        | Some next_states => next_states
        | None => []
        end in
      t <- attr "time_taken" time_taken ;;
      emit (SendTo (mkPayload (px cs) (py cs)
                              (map px forecast) (map py forecast)
                              (px closest_point) (py closest_point) t))
  end.

(** [control_loop]; [elapsed] is [end_time - start_time] as the wall
    clock gave it for this tick. *)
Definition control_loop (elapsed : R) : M C unit :=
  odom <- attr "odom_received" odom_received ;;
  if negb odom then
    emit (LogInfo "Waiting for initial odometry data...")
  else
    ref_trajectory <- reference_trajectory_N ;;
    s <- get ;;
    c <- attr "controller" controller ;;
    let ref_controls := Np.tile (previous_control s) (ctrl_N c) in
    current_state_unwrapped <-
      lift (unwrap_current_state (current_state s) ref_trajectory) ;;
    emit (SolveCall current_state_unwrapped ref_trajectory ref_controls) ;;
    (let '(c', u) :=
       ctrl_solve c current_state_unwrapped ref_trajectory ref_controls in
     modify (set_controller (Some c')) ;;
     modify (set_optimal_control (Some u))) ;;
    modify (set_time_taken (Some elapsed)) ;;
    stopped <- attr "stop" stop ;;
    (if stopped then emit (Publish 0 0)
     else
       u <- attr "optimal_control" optimal_control ;;
       emit (PrintControl u) ;;
       emit (Publish (fst u) (snd u))) ;;
    send_data.

(** [_init_controller] *)
Definition init_controller : M C unit :=
  s <- get ;;
  let p := params s in
  let N := scale_N (reference_trajectory s) in
  if Np.eqb (rate p) 0 then raise ZeroDivisionError
  else
    modify (set_controller
              (Some (ctrl_init (min_v p) (max_v p) (min_w p) (max_w p)
                               N (1 / rate p)))) ;;
    modify (set_path_type (Some (PATH_TYPE s))) ;;
    modify (set_stop (Some false)).

(* ----------------------------------------------------------------- *)
(** *** From the wait for the first pose on

    Once the trajectory is loaded and the parameters are read,
    [_init_communication] blocks ([spin_once] until
    [initial_position_received]); then [_init_controller] runs and
    creates the timer, and [rclpy.spin] dispatches odometry messages to
    [odom_callback] and timer expiries to [control_loop].  An exception
    that leaves a callback ends the process.  [node_at_wait] is the
    object on entry to the wait loop; whether [__init__] gets there is
    the matter of [main] below. *)

Inductive Phase : Type :=
| Constructing            (* in the wait loop of _init_communication *)
| Spinning                (* in rclpy.spin, timer running *)
| Crashed (e : Exn).

Inductive Input : Type :=
| OdomMsg (msg : Odometry)
| TimerFired (elapsed : R).

Definition node_at_wait (PATH_TYPE : string) (p : Params)
    (trajectory : list Pose) : Node C :=
  mkNode PATH_TYPE p None (0, 0) trajectory false None
         None None None None None None None None None.

Definition deliver (inp : Input) (sys : Phase * Node C)
    : Phase * Node C * list Event :=
  match sys with
  | (Constructing, s) =>
      match inp with
      | OdomMsg msg =>
          match odom_callback msg s with
          | (Raise e, s1, t1) => (Crashed e, s1, t1)
          | (Ok _, s1, t1) =>
              if initial_position_received s1 then
                match init_controller s1 with
                | (Raise e, s2, t2) => (Crashed e, s2, t1 ++ t2)
                | (Ok _, s2, t2) => (Spinning, s2, t1 ++ t2)
                end
              else (Constructing, s1, t1)
          end
      | TimerFired _ => (Constructing, s, [])   (* no timer exists yet *)
      end
  | (Spinning, s) =>
      match inp with
      | OdomMsg msg =>
          match odom_callback msg s with
          | (Raise e, s1, t1) => (Crashed e, s1, t1)
          | (Ok _, s1, t1) => (Spinning, s1, t1)
          end
      | TimerFired elapsed =>
          match control_loop elapsed s with
          | (Raise e, s1, t1) => (Crashed e, s1, t1)
          | (Ok _, s1, t1) => (Spinning, s1, t1)
          end
      end
  | (Crashed e, s) => (Crashed e, s, [])
  end.

Fixpoint run (inputs : list Input) (sys : Phase * Node C)
    : Phase * Node C * list Event :=
  match inputs with
  | [] => (sys, [])
  | inp :: rest =>
      match deliver inp sys with
      | (ph, s, t1) =>
          match run rest (ph, s) with
          | (sys', t2) => (sys', t1 ++ t2)
          end
      end
  end.

(* ----------------------------------------------------------------- *)
(** *** The constructor and [main]

    [__init__] calls [_init_state_variables], [_init_parameters],
    [_init_communication] and [_init_controller], in this order.
    [float] is Python's conversion of a cell, [open_] gives the rows
    [csv.reader] yields for a file name (or the error [open] raises),
    [p] and [trajectory_file] are the values of the declared parameters,
    and [inputs] is what [spin_once] and [spin] dispatch. *)

(** The attributes [_init_parameters] assigns; the object has neither
    before. *)
Record Settings : Type := mkSettings {
  rate_attribute : option R;             (* self.rate *)
  csv_file : option string               (* self.csv_file *)
}.

(** [load_trajectory] as the method is called: the file name is read off
    the object. *)
Definition load_trajectory_method (float : string -> option R)
    (open_ : string -> Res (list (list string))) (self : Settings)
    : Res (list Pose) :=
  match csv_file self with
  | None => Raise (AttributeError "csv_file")
  | Some file =>
      match open_ file with
      | Ok csv_rows => load_trajectory float csv_rows
      | Raise e => Raise e
      end
  end.

(** [_init_state_variables]: the state, the previous control and the
    trajectory storage are set, then the reference trajectory is
    loaded. *)
Definition init_state_variables (float : string -> option R)
    (open_ : string -> Res (list (list string))) (self : Settings)
    : Res (list Pose) :=
  load_trajectory_method float open_ self.

(** [_init_parameters] *)
Definition init_parameters (p : Params) (trajectory_file : string)
    (self : Settings) : Settings * list Event :=
  (mkSettings (Some (rate p)) (Some trajectory_file),
   [LogInfo "Loading parameters..."]).

(** [main]: [NMPCNode()], then [rclpy.spin].  The result is the phase
    reached, the node if one was built as far as the wait loop, and the
    trace. *)
Definition main (float : string -> option R)
    (open_ : string -> Res (list (list string))) (PATH_TYPE : string)
    (p : Params) (trajectory_file : string) (inputs : list Input)
    : Phase * option (Node C) * list Event :=
  let self := mkSettings None None in
  match init_state_variables float open_ self with
  | Raise e => (Crashed e, None, [])
  | Ok trajectory =>
      let '(self, t0) := init_parameters p trajectory_file self in
      match run inputs (Constructing, node_at_wait PATH_TYPE p trajectory) with
      | (ph, s, t) => (ph, Some s, t0 ++ t)
      end
  end.

(** The commands a trace published, the solver calls it made and the
    datagrams it sent, in order. *)
Fixpoint published (t : list Event) : list Control :=
  match t with
  | [] => []
  | Publish v w :: t' => (v, w) :: published t'
  | _ :: t' => published t'
  end.

Fixpoint solver_calls (t : list Event)
    : list (Pose * list Pose * list Control) :=
  match t with
  | [] => []
  | SolveCall x0 ref uref :: t' => (x0, ref, uref) :: solver_calls t'
  | _ :: t' => solver_calls t'
  end.

Fixpoint datagrams (t : list Event) : list Payload :=
  match t with
  | [] => []
  | SendTo d :: t' => d :: datagrams t'
  | _ :: t' => datagrams t'
  end.

Fixpoint searches (t : list Event) : nat :=
  match t with
  | [] => 0%nat
  | (PrintIndex _ | PrintReturnToStart) :: t' => S (searches t')
  | _ :: t' => searches t'
  end.

End Methods.

(* ================================================================= *)
(** ** The vocabulary of the specification *)

(** The specification's [angleDiff]: the difference wrapped through
    [atan2(sin d, cos d)], in double precision. *)
Definition angleDiff {FP : Doubles} (a b : R) : R :=
  fl_arctan2 (fl_sin (fl_sub a b)) (fl_cos (fl_sub a b)).

(** The specification's [cost(i)], point by point and in double
    precision:
    [||pos(path[i]) - pos(pose)|| + 0.2 * |angleDiff(unwrap(theta_path)[i], theta_pose)|]. *)
Definition cost_at {FP : Doubles} (path : list Pose) (pose : Pose) (i : nat)
    : R :=
  let p := nth i path (mkPose 0 0 0) in
  let dx := fl_sub (px p) (px pose) in
  let dy := fl_sub (py p) (py pose) in
  fl_add (fl_sqrt (fl_add (fl_mul dx dx) (fl_mul dy dy)))
         (fl_mul fl_weight
            (Rabs (angleDiff (nth i (Fl.unwrap (map ptheta path)) 0)
                             (ptheta pose)))).

(** Consecutive values, starting from [o], whose computed differences
    are below the threshold of [np.unwrap]. *)
Fixpoint continuous_from {FP : Doubles} (o : R) (l : list R) : Prop :=
  match l with
  | [] => True
  | y :: t =>
      Rabs (fl_sub y o) < fl_div (fl_mul 2 fl_pi) 2 /\ continuous_from y t
  end.

(** Consecutive values, starting from [o], differ by at most [bound]. *)
Fixpoint steps_le (bound o : R) (l : list R) : Prop :=
  match l with
  | [] => True
  | y :: t => Rabs (y - o) <= bound /\ steps_le bound y t
  end.

(** [index >= L - N]: within one horizon of the end of the path. *)
Definition near_end (L N i : nat) : bool :=
  (Z.of_nat L - Z.of_nat N <=? Z.of_nat i)%Z.

(** What the end-of-path policy makes of the cost-minimising index [i]:
    the index handed back, whether the stop flag is raised, and what is
    printed. *)
Definition resolved_index (pt : string) (L N i : nat) : nat :=
  if near_end L N i then
    if String.eqb pt "stop" then i
    else if String.eqb pt "repeat" then 1%nat else i
  else i.

Definition raises_stop (pt : string) (L N i : nat) : bool :=
  near_end L N i && String.eqb pt "stop".

Definition search_prints (pt : string) (L N i : nat) : list Event :=
  if near_end L N i then
    if String.eqb pt "stop" then [PrintStop; PrintIndex i]
    else if String.eqb pt "repeat" then [PrintReturnToStart]
    else [PrintIndex i]
  else [PrintIndex i].

(** The path rotated left by [r]: entry [j] is [path[(j + r) mod L]]. *)
Definition rotate {A : Type} (r : nat) (l : list A) : list A :=
  skipn (r mod length l) l ++ firstn (r mod length l) l.

(** Rotation invariance of the nearest index as the specification
    states it. *)
Definition rotation_invariant_at {FP : Doubles} (path : list Pose)
    (pose : Pose) (r : nat) : Prop :=
  forall i i',
    closest_index path pose = Some i ->
    closest_index (rotate r path) pose = Some i' ->
    Z.of_nat i' = ((Z.of_nat i - Z.of_nat r) mod Z.of_nat (length path))%Z.

(** The row [row] parses as exactly the three floats of [p]. *)
Definition row_is (float : string -> option R) (row : list string) (p : Pose)
    : Prop :=
  exists a b c, row = [a; b; c] /\
    float a = Some (px p) /\ float b = Some (py p) /\ float c = Some (ptheta p).

Definition malformed (float : string -> option R) (row : list string) : Prop :=
  forall p, ~ row_is float row p.

(** The loading contract as the specification states it: an error for an
    empty input or any malformed row, otherwise every row, in order, and
    at least one of them. *)
Definition load_contract (float : string -> option R)
    (csv_rows : list (list string)) : Prop :=
  (csv_rows = [] \/ Exists (malformed float) csv_rows ->
   exists e, load_trajectory float csv_rows = Raise e) /\
  (csv_rows <> [] -> Forall (fun row => ~ malformed float row) csv_rows ->
   exists path, load_trajectory float csv_rows = Ok path /\
                Forall2 (row_is float) csv_rows path /\
                (1 <= length path)%nat).

Fixpoint timer_expiries (inputs : list Input) : nat :=
  match inputs with
  | [] => 0%nat
  | TimerFired _ :: rest => S (timer_expiries rest)
  | OdomMsg _ :: rest => timer_expiries rest
  end.

Section Vocabulary.

Context {C : Type} {CC : ControllerClass C}.

Definition after_search (pt : string) (L N i : nat) (s : Node C) : Node C :=
  if raises_stop pt L N i then set_stop (Some true) s else s.

(** The forecast [send_data] reads off the controller. *)
Definition forecast_of (c : C) : list Pose :=
  match ctrl_next_states c with
  | Some next_states => next_states
  | None => []
  end.

(** A node that tracks under the "stop" policy and has raised its flag. *)
Definition stopped (s : Node C) : Prop :=
  odom_received s = Some true /\
  (exists cs, current_state s = Some cs) /\
  reference_trajectory s <> [] /\
  (exists c, controller s = Some c) /\
  path_type s = Some "stop"%string /\
  stop s = Some true.

End Vocabulary.

(* ----------------------------------------------------------------- *)
(** *** Fixtures for the examples *)

(** A fragment of Python's [float]: unsigned decimal integer literals.
    It stands for the conversion in the closed examples; the theorems
    about loading hold for any conversion. *)
Fixpoint digits_value (acc : Z) (s : string) : option Z :=
  match s with
  | EmptyString => Some acc
  | String ch rest =>
      let n := nat_of_ascii ch in
      if ((48 <=? n) && (n <=? 57))%nat
      then digits_value (10 * acc + Z.of_nat (n - 48)) rest
      else None
  end.

Definition float_literal (s : string) : option R :=
  match s with
  | EmptyString => None
  | _ => option_map IZR (digits_value 0 s)
  end.

(** A solver stub: it keeps the horizon length it was built with and
    always answers [(v, w) = (0.5, 0)]. *)
#[export] Instance stub_controller : ControllerClass nat := {|
  ctrl_init := fun _ _ _ _ N _ => N;
  ctrl_N := fun c => c;
  ctrl_solve := fun c _ _ _ => (c, (1 / 2, 0));
  ctrl_next_states := fun _ => None
|}.

Definition path3 : list Pose := [mkPose 0 0 0; mkPose 1 0 0; mkPose 2 0 0].
Definition pose1 : Pose := mkPose 1 0 0.
Definition path2 : list Pose := [mkPose 2 1 0; mkPose 0 1 0].
Definition pose_between : Pose := mkPose 1 1 0.
Definition pose0 : Pose := mkPose 0 0 0.
Definition default_params : Params := mkParams 10 (-1) 1 (-15 / 10) (15 / 10).
Definition unit_quaternion : Quaternion := mkQuat 0 0 0 1.

(** A node in [rclpy.spin] on [path3], standing on its second point,
    with the stub solver built for a horizon of 10. *)
Definition tracking_node (policy : string) (stop_flag : bool) : Node nat :=
  mkNode policy default_params (Some pose1) (0, 0) path3 true (Some pose1)
         (Some 1) (Some 0) (Some 0) (Some true) (Some 10%nat) (Some policy)
         (Some stop_flag) None None.

Definition drive_away : list Input :=
  [OdomMsg (mkOdom 0 0 unit_quaternion);
   TimerFired (1 / 10);
   OdomMsg (mkOdom (1 / 2) 0 unit_quaternion);
   TimerFired (1 / 10)].

(* ================================================================= *)
(** ** Vocabulary for the node's whole life *)

(** The quaternion of a rotation by [t] about the vertical axis. *)
Definition yaw_quaternion (t : R) : Quaternion :=
  mkQuat 0 0 (sin (t / 2)) (cos (t / 2)).

(** The yaw [odom_callback] reads off a message, and the state it stores
    for it. *)
Definition yaw_of (msg : Odometry) : R :=
  snd (euler_from_quaternion (orientation msg)).

Definition pose_of (msg : Odometry) : Pose :=
  mkPose (position_x msg) (position_y msg) (yaw_of msg).

Definition at_origin (msg : Odometry) : Prop :=
  position_x msg = 0 /\ position_y msg = 0.

(** The pose of the first, and of the last, message of a feed that is not
    at the origin. *)
Fixpoint first_accepted (msgs : list Odometry) : option Pose :=
  match msgs with
  | [] => None
  | msg :: rest =>
      if Np.eqb (position_x msg) 0 && Np.eqb (position_y msg) 0
      then first_accepted rest
      else Some (pose_of msg)
  end.

Fixpoint last_accepted (msgs : list Odometry) (cur : option Pose)
    : option Pose :=
  match msgs with
  | [] => cur
  | msg :: rest =>
      if Np.eqb (position_x msg) 0 && Np.eqb (position_y msg) 0
      then last_accepted rest cur
      else last_accepted rest (Some (pose_of msg))
  end.

(** An orientation in [-pi, pi]. *)
Definition principal (p : Pose) : Prop := - PI <= ptheta p <= PI.

(** A solver call [(x0, horizon, reference controls)] the solver can
    work with: zero reference controls, one horizon entry more than
    controls, a continuous horizon, and (on a path of principal
    orientations) a current state within pi of the horizon's start. *)
Definition well_posed (trajectory : list Pose)
    (call : Pose * list Pose * list Control) : Prop :=
  let '(x0, h, uref) := call in
  uref = Np.tile (0, 0) (length uref) /\
  length h = S (length uref) /\
  (forall k, (k < length uref)%nat ->
     Rabs (ptheta (nth (S k) h (mkPose 0 0 0)) - ptheta (nth k h (mkPose 0 0 0)))
     <= PI) /\
  (Forall principal trajectory ->
   Rabs (ptheta x0 - ptheta (nth 0 h (mkPose 0 0 0))) <= PI).

Section LifeVocabulary.

Context {C : Type} {CC : ControllerClass C}.

(** The node after a feed of odometry messages, one callback each. *)
Fixpoint callbacks (msgs : list Odometry) (s : Node C) : Node C :=
  match msgs with
  | [] => s
  | msg :: rest => callbacks rest (snd (fst (odom_callback msg s)))
  end.

(** The node in the wait for its first pose. *)
Definition waiting (PATH : string) (p : Params) (trajectory : list Pose)
    (s : Node C) : Prop :=
  PATH_TYPE s = PATH /\ params s = p /\ reference_trajectory s = trajectory /\
  initial_position_received s = false /\ previous_control s = (0, 0).

(** The node in [rclpy.spin]. *)
Definition tracking (PATH : string) (trajectory : list Pose) (s : Node C)
    : Prop :=
  odom_received s = Some true /\
  (exists cs, current_state s = Some cs /\ - PI < ptheta cs <= PI) /\
  reference_trajectory s = trajectory /\
  (exists c, controller s = Some c) /\
  path_type s = Some PATH /\
  (exists b, stop s = Some b /\ (b = true -> PATH = "stop"%string)) /\
  previous_control s = (0, 0).

Definition alive (PATH : string) (p : Params) (trajectory : list Pose)
    (ph : Phase) (s : Node C) : Prop :=
  match ph with
  | Constructing => waiting PATH p trajectory s
  | Spinning => tracking PATH trajectory s
  | Crashed _ => True
  end.

End LifeVocabulary.

(** More fixtures: a node on a path of a single point, a node whose path
    is empty, and a first pose away from the origin. *)
Definition lone_point_node : Node nat :=
  mkNode "repeat" default_params (Some pose1) (0, 0) [pose1] true (Some pose1)
         (Some 1) (Some 0) (Some 0) (Some true) (Some 10%nat)
         (Some "repeat"%string) (Some false) None None.

Definition pathless_node : Node nat :=
  mkNode "repeat" default_params (Some pose1) (0, 0) [] true (Some pose1)
         (Some 1) (Some 0) (Some 0) (Some true) (Some 10%nat)
         (Some "repeat"%string) (Some false) None None.

Definition first_pose : Odometry := mkOdom 1 0 unit_quaternion.


(* ================================================================= *)
(** ** Real-number facts about the numpy functions *)

Lemma ltb_true x y : Np.ltb x y = true <-> x < y.
Proof. unfold Np.ltb; destruct (Rlt_dec x y); split; intros; try easy. Qed.
Lemma ltb_false x y : Np.ltb x y = false <-> y <= x.
Proof. unfold Np.ltb; destruct (Rlt_dec x y); split; intros; try easy; lra. Qed.
Lemma leb_true x y : Np.leb x y = true <-> x <= y.
Proof. unfold Np.leb; destruct (Rle_dec x y); split; intros; try easy. Qed.
Lemma leb_false x y : Np.leb x y = false <-> y < x.
Proof. unfold Np.leb; destruct (Rle_dec x y); split; intros; try easy; lra. Qed.
Lemma eqb_true x y : Np.eqb x y = true <-> x = y.
Proof. unfold Np.eqb; destruct (Req_dec_T x y); split; intros; try easy. Qed.
Lemma eqb_false x y : Np.eqb x y = false <-> x <> y.
Proof. unfold Np.eqb; destruct (Req_dec_T x y); split; intros; try easy. Qed.

Lemma PI_gt_3 : 3 < PI.
Proof. pose proof PI2_3_2; lra. Qed.

Lemma arctan2_range y x : - PI < Np.arctan2 y x <= PI.
Proof.
  unfold Np.arctan2.
  pose proof (atan_bound (y / x)) as Hb. pose proof PI_RGT_0 as Hpi.
  destruct (Np.ltb 0 x) eqn:E1; [lra|].
  apply ltb_false in E1.
  destruct (Np.ltb x 0) eqn:E2.
  - apply ltb_true in E2.
    destruct (Np.leb 0 y) eqn:E3.
    + apply leb_true in E3.
      assert (y / x <= 0).
      { unfold Rdiv. assert (/ x < 0) by (apply Rinv_lt_0_compat; lra). nra. }
      assert (atan (y / x) <= 0).
      { destruct (Req_dec (y / x) 0) as [->|]; [rewrite atan_0; lra|].
        pose proof (atan_increasing (y / x) 0). rewrite atan_0 in *. lra. }
      lra.
    + apply leb_false in E3.
      assert (0 < y / x).
      { unfold Rdiv. assert (/ x < 0) by (apply Rinv_lt_0_compat; lra). nra. }
      pose proof (atan_increasing 0 (y / x)). rewrite atan_0 in *. lra.
  - destruct (Np.ltb 0 y); [lra|]. destruct (Np.ltb y 0); lra.
Qed.

Lemma mod_range a b : 0 < b -> 0 <= Np.mod_ a b < b.
Proof.
  intros Hb. unfold Np.mod_.
  destruct (base_Int_part (a / b)) as [H1 H2].
  assert (a = b * (a / b)) by (field; lra).
  split; nra.
Qed.

Lemma ph_correct_bound dd : Rabs (dd + Np.ph_correct dd) <= PI.
Proof.
  unfold Np.ph_correct. pose proof PI_RGT_0.
  replace (2 * PI / 2) with PI by lra.
  destruct (Np.ltb (Rabs dd) PI) eqn:E.
  - apply ltb_true in E. rewrite Rplus_0_r. lra.
  - pose proof (mod_range (dd - - PI) (2 * PI) ltac:(lra)) as Hm.
    destruct (Np.eqb _ _ && _); apply Rabs_le; lra.
Qed.

Lemma ph_correct_multiple dd : exists k : Z, Np.ph_correct dd = 2 * PI * IZR k.
Proof.
  unfold Np.ph_correct. pose proof PI_RGT_0.
  replace (2 * PI / 2) with PI by lra.
  destruct (Np.ltb (Rabs dd) PI).
  - exists 0%Z. lra.
  - destruct (Np.eqb _ _ && _) eqn:E.
    + apply andb_true_iff in E. destruct E as [E _]. apply eqb_true in E.
      unfold Np.mod_ in E.
      exists (1 - Int_part ((dd - - PI) / (2 * PI)))%Z.
      rewrite minus_IZR. lra.
    + unfold Np.mod_. exists (- Int_part ((dd - - PI) / (2 * PI)))%Z.
      rewrite opp_IZR. lra.
Qed.

Lemma unwrap_tail_cons prev acc x t :
  Np.add (x :: t) (Np.cumsum_from acc (map Np.ph_correct (Np.diff (prev :: x :: t))))
  = (x + (acc + Np.ph_correct (x - prev)))
      :: Np.add t (Np.cumsum_from (acc + Np.ph_correct (x - prev))
                     (map Np.ph_correct (Np.diff (x :: t)))).
Proof. reflexivity. Qed.

Lemma unwrap_tail_length rest : forall prev acc,
  length (Np.add rest (Np.cumsum_from acc (map Np.ph_correct (Np.diff (prev :: rest)))))
  = length rest.
Proof.
  induction rest as [|x t IH]; intros prev acc; [reflexivity|].
  rewrite unwrap_tail_cons. cbn [length]. f_equal. apply IH.
Qed.

Lemma unwrap_length p : length (Np.unwrap p) = length p.
Proof.
  destruct p as [|p0 rest]; [reflexivity|].
  unfold Np.unwrap, Np.cumsum. cbn [length]. f_equal. apply unwrap_tail_length.
Qed.

Lemma unwrap_tail_steps rest : forall prev acc,
  steps_le PI (prev + acc)
    (Np.add rest (Np.cumsum_from acc (map Np.ph_correct (Np.diff (prev :: rest))))).
Proof.
  induction rest as [|x t IH]; intros prev acc; [exact I|].
  rewrite unwrap_tail_cons. split.
  - replace (x + (acc + Np.ph_correct (x - prev)) - (prev + acc))
      with ((x - prev) + Np.ph_correct (x - prev)) by lra.
    apply ph_correct_bound.
  - apply IH.
Qed.

Lemma steps_le_nth bound l : forall o k,
  steps_le bound o l -> (S k < length (o :: l))%nat ->
  Rabs (nth (S k) (o :: l) 0 - nth k (o :: l) 0) <= bound.
Proof.
  induction l as [|y t IH]; intros o k Hs Hk; simpl in Hk; [lia|].
  destruct Hs as [H1 H2].
  destruct k as [|k]; [exact H1|].
  change (nth (S (S k)) (o :: y :: t) 0) with (nth (S k) (y :: t) 0).
  change (nth (S k) (o :: y :: t) 0) with (nth k (y :: t) 0).
  apply IH; [exact H2|simpl; lia].
Qed.

Lemma unwrap_steps p k :
  (S k < length p)%nat ->
  Rabs (nth (S k) (Np.unwrap p) 0 - nth k (Np.unwrap p) 0) <= PI.
Proof.
  intros Hk. destruct p as [|p0 rest]; [simpl in Hk; lia|].
  unfold Np.unwrap, Np.cumsum. apply steps_le_nth.
  - pose proof (unwrap_tail_steps rest p0 0) as H.
    now rewrite Rplus_0_r in H.
  - cbn [length]. rewrite unwrap_tail_length. simpl in Hk. lia.
Qed.

(** Each unwrapped value is the input plus a whole number of turns. *)
Lemma unwrap_tail_turns rest : forall prev acc (k0 : Z),
  acc = 2 * PI * IZR k0 ->
  forall j, (j < length rest)%nat ->
  exists k : Z,
    nth j (Np.add rest (Np.cumsum_from acc (map Np.ph_correct (Np.diff (prev :: rest))))) 0
    = nth j rest 0 + 2 * PI * IZR k.
Proof.
  induction rest as [|x t IH]; intros prev acc k0 Hacc j Hj; [simpl in Hj; lia|].
  rewrite unwrap_tail_cons.
  destruct (ph_correct_multiple (x - prev)) as [k1 Hk1].
  destruct j as [|j].
  - exists (k0 + k1)%Z. simpl. rewrite plus_IZR, Hk1, Hacc. lra.
  - simpl nth. apply (IH x _ (k0 + k1)%Z).
    + rewrite plus_IZR, Hk1, Hacc. lra.
    + simpl in Hj. lia.
Qed.

Lemma unwrap_turns p j :
  (j < length p)%nat ->
  exists k : Z, nth j (Np.unwrap p) 0 = nth j p 0 + 2 * PI * IZR k.
Proof.
  intros Hj. destruct p as [|p0 rest]; [simpl in Hj; lia|].
  unfold Np.unwrap, Np.cumsum.
  destruct j as [|j].
  - exists 0%Z. simpl. lra.
  - simpl nth. apply (unwrap_tail_turns rest p0 0 0%Z); [lra|simpl in Hj; lia].
Qed.

(** [np.argmin] returns the first least element. *)
Lemma argmin_from_spec l : forall best_i best i,
  (best_i < i)%nat ->
  let r := Np.argmin_from best_i best i l in
  (r = best_i /\ (forall j, (j < length l)%nat -> best <= nth j l 0))
  \/ ((i <= r)%nat /\ (r - i < length l)%nat /\
      nth (r - i) l 0 < best /\
      (forall j, (j < length l)%nat -> nth (r - i) l 0 <= nth j l 0) /\
      (forall j, (j < r - i)%nat -> nth (r - i) l 0 < nth j l 0)).
Proof.
  induction l as [|x t IH]; intros best_i best i Hlt; simpl.
  - left. split; [reflexivity|]. intros j Hj; lia.
  - destruct (Np.ltb x best) eqn:E.
    + apply ltb_true in E. right.
      destruct (IH i x (S i) ltac:(lia)) as [[Hr Hall]|(Hge & Hlen & Hv & Hall & Hfirst)].
      * rewrite Hr. replace (i - i)%nat with 0%nat by lia. simpl.
        repeat split; try lia; try lra.
        intros [|j] Hj; [lra|]. apply Hall. lia.
      * set (r := Np.argmin_from i x (S i) t) in *.
        replace (r - i)%nat with (S (r - S i)) by lia. simpl.
        repeat split; try lia; try lra.
        -- intros [|j] Hj; [lra|]. apply Hall. lia.
        -- intros [|j] Hj; [lra|]. apply Hfirst. lia.
    + apply ltb_false in E.
      destruct (IH best_i best (S i) ltac:(lia)) as [[Hr Hall]|(Hge & Hlen & Hv & Hall & Hfirst)].
      * left. split; [exact Hr|]. intros [|j] Hj; [lra|]. apply Hall. lia.
      * right. set (r := Np.argmin_from best_i best (S i) t) in *.
        replace (r - i)%nat with (S (r - S i)) by lia. simpl.
        repeat split; try lia; try lra.
        -- intros [|j] Hj; [lra|]. apply Hall. lia.
        -- intros [|j] Hj; [lra|]. apply Hfirst. lia.
Qed.

Lemma argmin_spec l i :
  Np.argmin l = Some i ->
  (i < length l)%nat /\
  (forall j, (j < length l)%nat -> nth i l 0 <= nth j l 0) /\
  (forall j, (j < i)%nat -> nth i l 0 < nth j l 0).
Proof.
  destruct l as [|x t]; [discriminate|]. simpl. intros [= <-].
  destruct (argmin_from_spec t 0%nat x 1%nat ltac:(lia))
    as [[Hr Hall]|(Hge & Hlen & Hv & Hall & Hfirst)].
  - rewrite Hr. simpl. repeat split; try lia.
    intros [|j] Hj; [lra|]. apply Hall. lia.
  - set (r := Np.argmin_from 0 x 1 t) in *.
    replace r with (S (r - 1)) by lia. simpl.
    repeat split; try lia.
    + intros [|j] Hj; [lra|]. apply Hall. lia.
    + intros [|j] Hj; [lra|]. apply Hfirst. lia.
Qed.

Lemma argmin_nonempty l : l <> [] -> exists i, Np.argmin l = Some i.
Proof. destruct l; [congruence|]. intros _. eexists; reflexivity. Qed.

(* ================================================================= *)
(** ** The nearest-point search *)

Lemma map_nth_in {A B} (f : A -> B) l d d' j :
  (j < length l)%nat -> nth j (map f l) d' = f (nth j l d).
Proof.
  intros Hj. rewrite (nth_indep _ d' (f d)) by (rewrite length_map; exact Hj).
  apply map_nth.
Qed.

Section Search.
Context {FP : Doubles}.

Lemma fl_add_length a : forall b,
  length a = length b -> length (Fl.add a b) = length a.
Proof.
  induction a as [|x a IH]; intros [|y b] H; simpl in *; try lia.
  f_equal. apply IH. lia.
Qed.

Lemma fl_add_nth a : forall b j, length a = length b -> (j < length a)%nat ->
  nth j (Fl.add a b) 0 = fl_add (nth j a 0) (nth j b 0).
Proof.
  induction a as [|x a IH]; intros [|y b] j H Hj; simpl in *; try lia.
  destruct j; [reflexivity|]. apply IH; lia.
Qed.

Lemma fl_diff_length l : forall a, length (Fl.diff (a :: l)) = length l.
Proof.
  induction l as [|b t IH]; intros a; [reflexivity|].
  cbn [Fl.diff length]. f_equal. apply IH.
Qed.

Lemma fl_cumsum_from_length l : forall acc,
  length (Fl.cumsum_from acc l) = length l.
Proof.
  induction l as [|x t IH]; intros acc; [reflexivity|].
  cbn [Fl.cumsum_from length]. f_equal. apply IH.
Qed.

Lemma fl_cumsum_length l : length (Fl.cumsum l) = length l.
Proof.
  destruct l as [|x t]; [reflexivity|].
  cbn [Fl.cumsum length]. f_equal. apply fl_cumsum_from_length.
Qed.

Lemma fl_unwrap_length p : length (Fl.unwrap p) = length p.
Proof.
  destruct p as [|p0 rest]; [reflexivity|].
  unfold Fl.unwrap. cbn [length]. f_equal.
  apply fl_add_length.
  now rewrite fl_cumsum_length, length_map, fl_diff_length.
Qed.

(** [np.unwrap] leaves a column alone whose computed steps are all below
    its threshold: every correction is zero, and adding zero is exact. *)
Lemma fl_corrections_vanish l : forall o,
  continuous_from o l ->
  map Fl.ph_correct (Fl.diff (o :: l)) = repeat 0 (length l).
Proof.
  induction l as [|y t IH]; intros o H; [reflexivity|].
  destruct H as [H1 H2].
  cbn [Fl.diff map length repeat]. f_equal; [|now apply IH].
  unfold Fl.ph_correct. apply ltb_true in H1. now rewrite H1.
Qed.

Lemma fl_cumsum_from_zeros n : Fl.cumsum_from 0 (repeat 0 n) = repeat 0 n.
Proof.
  induction n as [|n IH]; [reflexivity|].
  cbn [repeat Fl.cumsum_from]. rewrite fl_add_0_r. now rewrite IH.
Qed.

Lemma fl_cumsum_zeros n : Fl.cumsum (repeat 0 n) = repeat 0 n.
Proof.
  destruct n as [|n]; [reflexivity|].
  cbn [repeat Fl.cumsum]. now rewrite fl_cumsum_from_zeros.
Qed.

Lemma fl_add_zeros l : Fl.add l (repeat 0 (length l)) = l.
Proof.
  induction l as [|x t IH]; [reflexivity|].
  cbn [length repeat Fl.add]. now rewrite fl_add_0_r, IH.
Qed.

Lemma fl_unwrap_fixed p0 rest :
  continuous_from p0 rest -> Fl.unwrap (p0 :: rest) = p0 :: rest.
Proof.
  intros H. unfold Fl.unwrap.
  now rewrite (fl_corrections_vanish rest p0 H), fl_cumsum_zeros, fl_add_zeros.
Qed.

Lemma cost_vector_length path pose : length (cost_vector path pose) = length path.
Proof.
  unfold cost_vector.
  rewrite fl_add_length; rewrite ?length_map, ?fl_unwrap_length, ?length_map;
    reflexivity.
Qed.

Lemma cost_vector_nth path pose j :
  (j < length path)%nat -> nth j (cost_vector path pose) 0 = cost_at path pose j.
Proof.
  intros Hj. unfold cost_vector, cost_at, angleDiff, Fl.norm2.
  rewrite fl_add_nth; rewrite ?length_map, ?fl_unwrap_length, ?length_map; try easy.
  rewrite (map_nth_in _ _ (mkPose 0 0 0)) by exact Hj.
  rewrite (map_nth_in _ _ 0)
    by (rewrite length_map, fl_unwrap_length, length_map; exact Hj).
  rewrite (map_nth_in _ _ 0) by (rewrite fl_unwrap_length, length_map; exact Hj).
  reflexivity.
Qed.

Lemma closest_index_spec path pose i :
  closest_index path pose = Some i ->
  (i < length path)%nat /\
  (forall j, (j < length path)%nat -> cost_at path pose i <= cost_at path pose j) /\
  (forall j, (j < i)%nat -> cost_at path pose i < cost_at path pose j).
Proof.
  unfold closest_index. intros H. apply argmin_spec in H.
  rewrite cost_vector_length in H. destruct H as (Hi & Hmin & Hfirst).
  split; [exact Hi|]. split.
  - intros j Hj. rewrite <- !cost_vector_nth by assumption. now apply Hmin.
  - intros j Hj. rewrite <- !cost_vector_nth by lia. now apply Hfirst.
Qed.

Lemma closest_index_total path pose :
  path <> [] -> exists i, closest_index path pose = Some i.
Proof.
  intros H. apply argmin_nonempty. intros E.
  apply (f_equal (@length R)) in E. rewrite cost_vector_length in E.
  destruct path; [congruence|discriminate].
Qed.

(** A strict minimiser is the index the search returns. *)
Lemma closest_index_unique path pose i :
  (i < length path)%nat ->
  (forall j, (j < length path)%nat -> j <> i -> cost_at path pose i < cost_at path pose j) ->
  closest_index path pose = Some i.
Proof.
  intros Hi Hu.
  destruct (closest_index_total path pose) as [k Hk].
  { destruct path; [simpl in Hi; lia|discriminate]. }
  destruct (closest_index_spec _ _ _ Hk) as (Hk1 & Hk2 & _).
  destruct (Nat.eq_dec k i) as [->|Hne]; [exact Hk|].
  specialize (Hu k Hk1 Hne). specialize (Hk2 i Hi). lra.
Qed.

(** So is the first of several minimisers. *)
Lemma closest_index_first_min path pose i :
  (i < length path)%nat ->
  (forall j, (j < length path)%nat -> cost_at path pose i <= cost_at path pose j) ->
  (forall j, (j < i)%nat -> cost_at path pose i < cost_at path pose j) ->
  closest_index path pose = Some i.
Proof.
  intros Hi Hmin Hfirst.
  destruct (closest_index_total path pose) as [k Hk].
  { destruct path; [simpl in Hi; lia|discriminate]. }
  destruct (closest_index_spec _ _ _ Hk) as (Hk1 & Hk2 & Hk3).
  destruct (Nat.lt_trichotomy k i) as [Hlt|[->|Hgt]]; [|exact Hk|].
  - specialize (Hfirst k Hlt). specialize (Hk2 i Hi). lra.
  - specialize (Hk3 i Hgt). specialize (Hmin k Hk1). lra.
Qed.

End Search.

(* ================================================================= *)
(** ** Horizon extraction *)

Lemma window_length path i N : length (window path i N) = (N + 1)%nat.
Proof. unfold window. now rewrite length_map, length_seq. Qed.

Lemma window_nth path i N k d :
  (k <= N)%nat ->
  nth k (window path i N) d = nth ((i + k) mod length path) path (mkPose 0 0 0).
Proof.
  intros Hk. unfold window.
  rewrite (map_nth_in _ _ 0%nat) by (rewrite length_seq; lia).
  rewrite seq_nth by lia. reflexivity.
Qed.

Lemma assign_theta_length rows : forall col,
  length rows = length col -> length (assign_theta rows col) = length rows.
Proof.
  induction rows as [|p ps IH]; intros [|th ths] H; simpl in *; try lia.
  f_equal. apply IH. lia.
Qed.

Lemma assign_theta_nth rows : forall col k d,
  length rows = length col -> (k < length rows)%nat ->
  nth k (assign_theta rows col) d
  = mkPose (px (nth k rows d)) (py (nth k rows d)) (nth k col 0).
Proof.
  induction rows as [|p ps IH]; intros [|th ths] k d H Hk; simpl in *; try lia.
  destruct k; [reflexivity|]. apply IH; lia.
Qed.

Lemma horizon_length path i N : length (horizon path i N) = (N + 1)%nat.
Proof.
  unfold horizon. rewrite assign_theta_length.
  - apply window_length.
  - now rewrite unwrap_length, length_map.
Qed.

Lemma horizon_nth path i N k d :
  (k <= N)%nat ->
  nth k (horizon path i N) d
  = mkPose (px (nth ((i + k) mod length path) path (mkPose 0 0 0)))
           (py (nth ((i + k) mod length path) path (mkPose 0 0 0)))
           (nth k (Np.unwrap (map ptheta (window path i N))) 0).
Proof.
  intros Hk. unfold horizon.
  rewrite assign_theta_nth.
  - now rewrite window_nth.
  - now rewrite unwrap_length, length_map.
  - rewrite window_length. lia.
Qed.

Lemma horizon_cons path i N : exists r0 rest, horizon path i N = r0 :: rest.
Proof.
  pose proof (horizon_length path i N) as H.
  destruct (horizon path i N) as [|r0 rest]; [simpl in H; lia|eauto].
Qed.

Lemma horizon_head path i N :
  path <> [] ->
  nth 0 (horizon path i N) (mkPose 0 0 0)
  = nth (i mod length path) path (mkPose 0 0 0).
Proof.
  intros _. unfold horizon, window.
  replace (N + 1)%nat with (S N) by lia. cbn [seq map].
  unfold Np.unwrap. cbn [assign_theta nth].
  rewrite Nat.add_0_r. now destruct (nth (i mod length path) path _).
Qed.

Lemma horizon_steps path i N k :
  (k < N)%nat ->
  Rabs (ptheta (nth (S k) (horizon path i N) (mkPose 0 0 0))
        - ptheta (nth k (horizon path i N) (mkPose 0 0 0))) <= PI.
Proof.
  intros Hk. rewrite !horizon_nth by lia. cbn [ptheta].
  apply unwrap_steps. rewrite length_map, window_length. lia.
Qed.


(* ================================================================= *)
(** ** What the methods compute on a running node *)

Section Runs.
Context {C : Type} {CC : ControllerClass C} {FP : Doubles}.

Lemma find_run (s : Node C) cs c i pt :
  closest_index (reference_trajectory s) cs = Some i ->
  controller s = Some c ->
  path_type s = Some pt ->
  let L := length (reference_trajectory s) in
  find_closest_point_index (Some cs) s =
    (Ok (resolved_index pt L (ctrl_N c) i),
     after_search pt L (ctrl_N c) i s,
     search_prints pt L (ctrl_N c) i).
Proof.
  intros Hi Hc Hpt L.
  unfold find_closest_point_index, resolved_index, after_search, raises_stop,
    search_prints, near_end, bind, subscriptable, get, ret, attr, L.
  destruct (reference_trajectory s) as [|r0 rest] eqn:Hp; [discriminate|].
  rewrite Hi, Hc.
  destruct (_ <=? _)%Z; [|reflexivity].
  rewrite Hpt.
  destruct (String.eqb pt "stop"); [reflexivity|].
  destruct (String.eqb pt "repeat"); reflexivity.
Qed.

Lemma after_search_fields pt L N i (s : Node C) :
  let s' := after_search pt L N i s in
  reference_trajectory s' = reference_trajectory s /\
  current_state s' = current_state s /\
  controller s' = controller s /\
  path_type s' = path_type s /\
  previous_control s' = previous_control s /\
  odom_received s' = odom_received s /\
  time_taken s' = time_taken s /\
  optimal_control s' = optimal_control s /\
  stop s' = (if raises_stop pt L N i then Some true else stop s).
Proof. unfold after_search. destruct (raises_stop pt L N i); repeat split. Qed.

Lemma reference_trajectory_N_run (s : Node C) cs c i pt :
  current_state s = Some cs ->
  closest_index (reference_trajectory s) cs = Some i ->
  controller s = Some c ->
  path_type s = Some pt ->
  let L := length (reference_trajectory s) in
  reference_trajectory_N s =
    (Ok (horizon (reference_trajectory s)
                 (resolved_index pt L (ctrl_N c) i) (ctrl_N c)),
     after_search pt L (ctrl_N c) i s,
     search_prints pt L (ctrl_N c) i).
Proof.
  intros Hcs Hi Hc Hpt L.
  unfold reference_trajectory_N, bind. cbn [get].
  rewrite Hcs, (find_run s cs c i pt Hi Hc Hpt). fold L.
  destruct (after_search_fields pt L (ctrl_N c) i s) as (Hr & _ & Hc' & _).
  unfold attr. rewrite Hc', Hc. cbn [get]. rewrite Hr.
  destruct (reference_trajectory s) as [|r0 rest] eqn:Hp; [discriminate|].
  cbn [length Nat.eqb ret]. now rewrite !app_nil_r.
Qed.

Lemma send_data_run (s : Node C) cs c i pt t :
  current_state s = Some cs ->
  closest_index (reference_trajectory s) cs = Some i ->
  controller s = Some c ->
  path_type s = Some pt ->
  time_taken s = Some t ->
  let L := length (reference_trajectory s) in
  send_data s =
    match nth_error (reference_trajectory s)
                    (resolved_index pt L (ctrl_N c) i) with
    | Some cp =>
        (Ok tt,
         after_search pt L (ctrl_N c) i s,
         search_prints pt L (ctrl_N c) i ++
         [SendTo (mkPayload (px cs) (py cs)
                            (map px (forecast_of c)) (map py (forecast_of c))
                            (px cp) (py cp) t)])
    | None =>
        (Raise IndexError,
         after_search pt L (ctrl_N c) i s,
         search_prints pt L (ctrl_N c) i)
    end.
Proof.
  intros Hcs Hi Hc Hpt Ht L.
  unfold send_data, bind. cbn [get].
  rewrite Hcs, (find_run s cs c i pt Hi Hc Hpt). fold L.
  destruct (after_search_fields pt L (ctrl_N c) i s)
    as (Hr & Hcs' & Hc' & _ & _ & _ & Ht' & _).
  rewrite Hr.
  destruct (nth_error _ _) as [cp|].
  - rewrite Hcs', Hcs. cbn [subscriptable ret].
    unfold attr. rewrite Hc', Hc, Ht', Ht. cbn [emit]. reflexivity.
  - cbn [raise]. now rewrite app_nil_r.
Qed.

Lemma control_loop_run (s : Node C) cs c i pt b elapsed :
  odom_received s = Some true ->
  current_state s = Some cs ->
  closest_index (reference_trajectory s) cs = Some i ->
  controller s = Some c ->
  path_type s = Some pt ->
  stop s = Some b ->
  let path := reference_trajectory s in
  let L := length path in
  let N := ctrl_N c in
  let h := horizon path (resolved_index pt L N i) N in
  let uref := Np.tile (previous_control s) N in
  forall x0, unwrap_current_state (Some cs) h = Ok x0 ->
  let c' := fst (ctrl_solve c x0 h uref) in
  let u := snd (ctrl_solve c x0 h uref) in
  let s' :=
    after_search pt L (ctrl_N c') i
      (set_time_taken (Some elapsed)
         (set_optimal_control (Some u)
            (set_controller (Some c') (after_search pt L N i s)))) in
  let t :=
    search_prints pt L N i ++
    [SolveCall x0 h uref] ++
    (if b || raises_stop pt L N i then [Publish 0 0]
     else [PrintControl u; Publish (fst u) (snd u)]) ++
    search_prints pt L (ctrl_N c') i in
  control_loop elapsed s =
    match nth_error path (resolved_index pt L (ctrl_N c') i) with
    | Some cp =>
        (Ok tt, s',
         t ++ [SendTo (mkPayload (px cs) (py cs)
                         (map px (forecast_of c')) (map py (forecast_of c'))
                         (px cp) (py cp) elapsed)])
    | None => (Raise IndexError, s', t)
    end.
Proof.
  intros Hodom Hcs Hi Hc Hpt Hb path L N h uref x0 Hx0 c' u s' t.
  subst s' t.
  unfold control_loop. unfold bind at 1. unfold attr at 1. rewrite Hodom.
  cbn [negb]. unfold bind at 1.
  rewrite (reference_trajectory_N_run s cs c i pt Hcs Hi Hc Hpt).
  fold path L N h.
  destruct (after_search_fields pt L N i s)
    as (Hr & Hcs' & Hc' & Hpt' & Hprev & Hodom' & Ht' & Hoc' & Hstop').
  set (s1 := after_search pt L N i s) in *.
  unfold bind at 1. cbn [get]. unfold bind at 1. unfold attr at 1.
  rewrite Hc', Hc. fold N. rewrite Hprev. fold uref.
  unfold bind at 1. rewrite Hcs', Hcs, Hx0. cbn [lift ret].
  unfold bind at 1. cbn [emit].
  unfold bind at 1.
  destruct (ctrl_solve c x0 h uref) as [c1 u1] eqn:Hsolve.
  cbn [fst snd] in c', u. subst c' u.
  unfold bind at 1. cbn [modify].
  unfold bind at 1. cbn [modify].
  unfold bind at 1. unfold attr at 1.
  cbn [stop set_time_taken set_optimal_control set_controller].
  rewrite Hstop', Hb.
  set (s3 := set_time_taken _ _).
  pose proof (send_data_run s3 cs c1 i pt elapsed) as Hsend.
  cbv zeta in Hsend.
  change (reference_trajectory s3) with (reference_trajectory s1) in Hsend.
  change (current_state s3) with (current_state s1) in Hsend.
  change (path_type s3) with (path_type s1) in Hsend.
  rewrite Hr, Hcs', Hpt' in Hsend. fold path L in Hsend.
  specialize (Hsend Hcs Hi eq_refl Hpt eq_refl).
  destruct (raises_stop pt L N i) eqn:Hrs; destruct b; cbn [orb].
  all: unfold bind; cbn [emit attr optimal_control set_time_taken set_optimal_control].
  all: try change (attr "optimal_control" optimal_control s3)
         with (Ok u1, s3, @nil Event); cbn iota.
  all: rewrite Hsend; destruct (nth_error path _) as [cp|];
    cbn [app]; rewrite ?app_nil_r, <- ?app_assoc; reflexivity.
Qed.

End Runs.

Section Callbacks.
Context {C : Type} {CC : ControllerClass C} {FP : Doubles}.

Lemma published_app (a b : list Event) : published (a ++ b) = published a ++ published b.
Proof. induction a as [|[] a IH]; simpl; rewrite ?IH; reflexivity. Qed.
Lemma solver_calls_app (a b : list Event) :
  solver_calls (a ++ b) = solver_calls a ++ solver_calls b.
Proof. induction a as [|[] a IH]; simpl; rewrite ?IH; reflexivity. Qed.
Lemma datagrams_app (a b : list Event) : datagrams (a ++ b) = datagrams a ++ datagrams b.
Proof. induction a as [|[] a IH]; simpl; rewrite ?IH; reflexivity. Qed.
Lemma searches_app (a b : list Event) : (searches (a ++ b) = searches a + searches b)%nat.
Proof. induction a as [|[] a IH]; simpl; rewrite ?IH; reflexivity. Qed.

Lemma search_prints_quiet pt L N i :
  published (search_prints pt L N i) = [] /\
  solver_calls (search_prints pt L N i) = [] /\
  datagrams (search_prints pt L N i) = [] /\
  searches (search_prints pt L N i) = 1%nat.
Proof.
  unfold search_prints.
  destruct (near_end L N i); [|now repeat split].
  destruct (String.eqb pt "stop"); [now repeat split|].
  destruct (String.eqb pt "repeat"); now repeat split.
Qed.

(** [odom_callback] on an origin pose, and what any callback preserves. *)
Lemma odom_callback_origin (msg : Odometry) (s : Node C) :
  position_x msg = 0 -> position_y msg = 0 ->
  odom_callback msg s =
    (Ok tt, set_y_position (Some 0) (set_x_position (Some 0) s), []).
Proof.
  intros Hx Hy. unfold odom_callback, bind, modify, attr. cbn.
  rewrite Hx, Hy.
  assert (E : Np.eqb 0 0 = true) by now apply eqb_true.
  rewrite E. reflexivity.
Qed.

Lemma odom_callback_fields (msg : Odometry) (s : Node C) :
  exists s', odom_callback msg s = (Ok tt, s', []) /\
    PATH_TYPE s' = PATH_TYPE s /\ params s' = params s /\
    previous_control s' = previous_control s /\
    reference_trajectory s' = reference_trajectory s /\
    controller s' = controller s /\ path_type s' = path_type s /\
    stop s' = stop s /\
    ((odom_received s' = odom_received s /\ current_state s' = current_state s)
     \/ (odom_received s' = Some true /\ exists cs, current_state s' = Some cs)).
Proof.
  unfold odom_callback, bind, modify, attr. cbn.
  destruct (Np.eqb (position_x msg) 0 && Np.eqb (position_y msg) 0).
  - eexists. split; [reflexivity|]. cbn. repeat split. now left.
  - destruct (initial_position_received s) eqn:E; cbn; rewrite ?E; cbn.
    + eexists. split; [reflexivity|]. cbn. repeat split. right. eauto.
    + eexists. split; [reflexivity|]. cbn. repeat split. right. eauto.
Qed.

Lemma resolved_index_stop L N i : resolved_index "stop" L N i = i.
Proof. unfold resolved_index. now destruct (near_end L N i). Qed.

End Callbacks.

Section Ticks.
Context {C : Type} {CC : ControllerClass C} {FP : Doubles}.

Lemma horizon_unwrappable cs path i N :
  exists x0, unwrap_current_state (Some cs) (horizon path i N) = Ok x0.
Proof.
  destruct (horizon_cons path i N) as (r0 & rest & ->). eexists; reflexivity.
Qed.

Lemma resolved_index_bound pt L N i :
  (i < L)%nat -> (2 <= L)%nat -> (resolved_index pt L N i < L)%nat.
Proof.
  intros Hi HL. unfold resolved_index.
  destruct (near_end L N i); [|exact Hi].
  destruct (String.eqb pt "stop"); [exact Hi|].
  destruct (String.eqb pt "repeat"); [lia|exact Hi].
Qed.

(** What one tick does on a node that has a pose, a path and a controller. *)
Lemma tick_facts (s : Node C) cs c i pt b elapsed :
  odom_received s = Some true ->
  current_state s = Some cs ->
  closest_index (reference_trajectory s) cs = Some i ->
  controller s = Some c ->
  path_type s = Some pt ->
  stop s = Some b ->
  let path := reference_trajectory s in
  let L := length path in
  let N := ctrl_N c in
  let h := horizon path (resolved_index pt L N i) N in
  let uref := Np.tile (previous_control s) N in
  exists x0 r s' t,
    unwrap_current_state (Some cs) h = Ok x0 /\
    control_loop elapsed s = (r, s', t) /\
    let sol := ctrl_solve c x0 h uref in
    solver_calls t = [(x0, h, uref)] /\
    published t = [if b || raises_stop pt L N i then (0, 0) else snd sol] /\
    previous_control s' = previous_control s /\
    odom_received s' = Some true /\
    current_state s' = Some cs /\
    reference_trajectory s' = path /\
    path_type s' = Some pt /\
    controller s' = Some (fst sol) /\
    optimal_control s' = Some (snd sol) /\
    stop s' = Some (b || raises_stop pt L N i
                      || raises_stop pt L (ctrl_N (fst sol)) i) /\
    match nth_error path (resolved_index pt L (ctrl_N (fst sol)) i) with
    | Some cp =>
        r = Ok tt /\
        datagrams t =
          [mkPayload (px cs) (py cs)
             (map px (forecast_of (fst sol))) (map py (forecast_of (fst sol)))
             (px cp) (py cp) elapsed] /\
        searches t = 2%nat
    | None => r = Raise IndexError /\ datagrams t = []
    end.
Proof.
  intros Hodom Hcs Hi Hc Hpt Hb path L N h uref.
  destruct (horizon_unwrappable cs path (resolved_index pt L N i) N) as [x0 Hx0].
  fold h in Hx0.
  pose proof (control_loop_run s cs c i pt b elapsed
                Hodom Hcs Hi Hc Hpt Hb x0 Hx0) as Hrun.
  cbv zeta in Hrun. fold path L N h uref in Hrun.
  set (sol := ctrl_solve c x0 h uref) in *.
  destruct (after_search_fields pt L N i s)
    as (Hr & Hcs' & Hc' & Hpt' & Hprev & Hodom' & Ht' & Hoc' & Hstop').
  set (s1 := after_search pt L N i s) in *.
  set (s3 := set_time_taken (Some elapsed)
               (set_optimal_control (Some (snd sol))
                  (set_controller (Some (fst sol)) s1))) in *.
  destruct (after_search_fields pt L (ctrl_N (fst sol)) i s3)
    as (Hr2 & Hcs2 & Hc2 & Hpt2 & Hprev2 & Hodom2 & Ht2 & Hoc2 & Hstop2).
  set (s4 := after_search pt L (ctrl_N (fst sol)) i s3) in *.
  destruct (search_prints_quiet pt L N i) as (Hq1 & Hq2 & Hq3 & Hq4).
  destruct (search_prints_quiet pt L (ctrl_N (fst sol)) i) as (Hp1 & Hp2 & Hp3 & Hp4).
  assert (Hpub : forall u : Control,
    published (if b || raises_stop pt L N i then [Publish 0 0]
               else [PrintControl u; Publish (fst u) (snd u)])
    = [if b || raises_stop pt L N i then (0, 0) else u]).
  { intros [v w]. destruct (b || raises_stop pt L N i); reflexivity. }
  assert (Hsc : forall u : Control,
    solver_calls (if b || raises_stop pt L N i then [Publish 0 0]
                  else [PrintControl u; Publish (fst u) (snd u)]) = []).
  { intros u. destruct (b || raises_stop pt L N i); reflexivity. }
  assert (Hdg : forall u : Control,
    datagrams (if b || raises_stop pt L N i then [Publish 0 0]
               else [PrintControl u; Publish (fst u) (snd u)]) = []).
  { intros u. destruct (b || raises_stop pt L N i); reflexivity. }
  assert (Hse : forall u : Control,
    searches (if b || raises_stop pt L N i then [Publish 0 0]
              else [PrintControl u; Publish (fst u) (snd u)]) = 0%nat).
  { intros u. destruct (b || raises_stop pt L N i); reflexivity. }
  assert (Hstop4 : stop s4 = Some (b || raises_stop pt L N i
                                   || raises_stop pt L (ctrl_N (fst sol)) i)).
  { rewrite Hstop2. change (stop s3) with (stop s1). rewrite Hstop', Hb.
    destruct (raises_stop pt L (ctrl_N (fst sol)) i);
      destruct (raises_stop pt L N i); destruct b; reflexivity. }
  exists x0.
  destruct (nth_error path (resolved_index pt L (ctrl_N (fst sol)) i)) as [cp|] eqn:Hcp;
    eexists _, _, _; (split; [exact Hx0|]); (split; [exact Hrun|]); cbv zeta;
    rewrite ?solver_calls_app, ?published_app, ?datagrams_app, ?searches_app,
            ?Hq1, ?Hq2, ?Hq3, ?Hq4, ?Hp1, ?Hp2, ?Hp3, ?Hp4, ?Hpub, ?Hsc, ?Hdg, ?Hse;
    cbn [app solver_calls published datagrams searches Nat.add];
    rewrite Hprev2, Hodom2, Hcs2, Hr2, Hpt2, Hc2, Hoc2, Hstop4;
    change (previous_control s3) with (previous_control s1);
    change (odom_received s3) with (odom_received s1);
    change (current_state s3) with (current_state s1);
    change (reference_trajectory s3) with (reference_trajectory s1);
    change (path_type s3) with (path_type s1);
    change (controller s3) with (Some (fst sol));
    change (optimal_control s3) with (Some (snd sol));
    rewrite Hprev, Hodom', Hcs', Hr, Hpt';
    repeat split; try assumption; try reflexivity.
  all: fold sol; rewrite Hcp; repeat split.
Qed.

End Ticks.

Section StickyStop.
Context {C : Type} {CC : ControllerClass C} {FP : Doubles}.

Lemma tick_under_stop_policy (s : Node C) cs c i b elapsed :
  odom_received s = Some true ->
  current_state s = Some cs ->
  closest_index (reference_trajectory s) cs = Some i ->
  controller s = Some c ->
  path_type s = Some "stop"%string ->
  stop s = Some b ->
  exists s' t,
    control_loop elapsed s = (Ok tt, s', t) /\
    odom_received s' = Some true /\
    current_state s' = Some cs /\
    reference_trajectory s' = reference_trajectory s /\
    (exists c', controller s' = Some c') /\
    path_type s' = Some "stop"%string /\
    (b || near_end (length (reference_trajectory s)) (ctrl_N c) i = true ->
     stop s' = Some true /\ published t = [(0, 0)]).
Proof.
  intros Hodom Hcs Hi Hc Hpt Hb.
  destruct (closest_index_spec _ _ _ Hi) as (HiL & _).
  destruct (tick_facts s cs c i "stop" b elapsed Hodom Hcs Hi Hc Hpt Hb)
    as (x0 & r & s' & t & _ & Hrun & Hfacts).
  cbv zeta in Hfacts.
  destruct Hfacts
    as (_ & Hpub & _ & Ho & Hcs' & Hr & Hpt' & Hc' & _ & Hst & Hsend).
  rewrite resolved_index_stop in Hsend.
  destruct (nth_error (reference_trajectory s) i) as [cp|] eqn:Hcp;
    [|apply nth_error_None in Hcp; lia].
  destruct Hsend as (-> & _).
  exists s', t. repeat split; eauto.
  - rewrite Hst. unfold raises_stop at 1. rewrite andb_true_r, H. reflexivity.
  - rewrite Hpub. unfold raises_stop. rewrite andb_true_r, H. reflexivity.
Qed.

Lemma stopped_tick (s : Node C) elapsed :
  stopped s ->
  exists s' t, control_loop elapsed s = (Ok tt, s', t) /\
               stopped s' /\ published t = [(0, 0)].
Proof.
  intros (Hodom & [cs Hcs] & Hne & [c Hc] & Hpt & Hstop).
  destruct (closest_index_total (reference_trajectory s) cs Hne) as [i Hi].
  destruct (tick_under_stop_policy s cs c i true elapsed Hodom Hcs Hi Hc Hpt Hstop)
    as (s' & t & Hrun & Ho & Hc1 & Hr & Hc2 & Hp & Hs).
  destruct (Hs eq_refl) as [Hs1 Hs2].
  exists s', t. split; [exact Hrun|]. split; [|exact Hs2].
  unfold stopped. rewrite Hr. repeat split; eauto.
Qed.

Lemma stopped_odom (s : Node C) msg :
  stopped s ->
  exists s', odom_callback msg s = (Ok tt, s', []) /\ stopped s'.
Proof.
  intros (Hodom & [cs Hcs] & Hne & [c Hc] & Hpt & Hstop).
  destruct (odom_callback_fields msg s)
    as (s' & Hrun & _ & _ & _ & Hr & Hc' & Hpt' & Hst' & Hcase).
  exists s'. split; [exact Hrun|].
  unfold stopped. rewrite Hr, Hc', Hpt', Hst'.
  destruct Hcase as [[-> ->]|[-> Hex]]; repeat split; eauto.
Qed.

Lemma stopped_run inputs : forall (s : Node C),
  stopped s ->
  exists s' t, run inputs (Spinning, s) = (Spinning, s', t) /\
               stopped s' /\
               published t = repeat (0, 0) (timer_expiries inputs).
Proof.
  induction inputs as [|inp rest IH]; intros s Hs.
  - exists s, []. split; [reflexivity|]. split; [exact Hs|reflexivity].
  - destruct inp as [msg|elapsed].
    + destruct (stopped_odom s msg Hs) as (s1 & Hrun & Hs1).
      destruct (IH s1 Hs1) as (s' & t & Hrest & Hs' & Hpub).
      exists s', t. cbn [run deliver]. rewrite Hrun, Hrest.
      split; [reflexivity|]. split; assumption.
    + destruct (stopped_tick s elapsed Hs) as (s1 & t1 & Hrun & Hs1 & Hp1).
      destruct (IH s1 Hs1) as (s' & t & Hrest & Hs' & Hpub).
      exists s', (t1 ++ t). cbn [run deliver]. rewrite Hrun, Hrest.
      split; [reflexivity|]. split; [assumption|].
      rewrite published_app, Hp1, Hpub. reflexivity.
Qed.

(** C1.  Under the "stop" policy, a tick whose cost-minimising index [i]
    satisfies [i >= L - N] publishes the zero command and raises the stop
    flag, and after it every timer expiry publishes exactly one command,
    the zero command, whatever odometry arrives in between (so also when
    a later search returns a non-terminal index): the flag is never
    lowered. *)
Theorem stop_is_sticky (s : Node C) (cs : Pose) (c : C) (i : nat) (b : bool)
    (elapsed : R) (later : list Input) :
  odom_received s = Some true ->
  current_state s = Some cs ->
  controller s = Some c ->
  path_type s = Some "stop"%string ->
  stop s = Some b ->
  closest_index (reference_trajectory s) cs = Some i ->
  (Z.of_nat (length (reference_trajectory s)) - Z.of_nat (ctrl_N c)
   <= Z.of_nat i)%Z ->
  exists s1 t1 s2 t2,
    deliver (TimerFired elapsed) (Spinning, s) = (Spinning, s1, t1) /\
    stop s1 = Some true /\
    published t1 = [(0, 0)] /\
    run later (Spinning, s1) = (Spinning, s2, t2) /\
    stop s2 = Some true /\
    published t2 = repeat (0, 0) (timer_expiries later).
Proof.
  intros Hodom Hcs Hc Hpt Hstop Hi Hend.
  destruct (tick_under_stop_policy s cs c i b elapsed Hodom Hcs Hi Hc Hpt Hstop)
    as (s1 & t1 & Hrun & Ho & Hc1 & Hr & Hc2 & Hp & Hs).
  destruct Hs as [Hs1 Hs2].
  { unfold near_end. apply Z.leb_le in Hend. rewrite Hend. apply orb_true_r. }
  assert (Hstopped : stopped s1).
  { unfold stopped. rewrite Hr. repeat split; eauto.
    intros E. rewrite E in Hi. discriminate. }
  destruct (stopped_run later s1 Hstopped) as (s2 & t2 & Hrest & Hs2' & Hpub).
  exists s1, t1, s2, t2. cbn [deliver]. rewrite Hrun.
  repeat split; try assumption. apply Hs2'.
Qed.

(** C8, evaluated on the code.  A pose update at position exactly (0, 0)
    leaves the stored state and its validity flags as they were.  But the
    node never gets to wait for a pose: [__init__] calls
    [load_trajectory] before [_init_parameters] has assigned
    [self.csv_file], so constructing the node raises [AttributeError],
    whatever the file, the parameters and the poses that would arrive.
    And the flag the control loop's waiting branch tests is assigned
    nowhere but where the callback accepts a pose: a tick on a node that
    has accepted none raises [AttributeError] as well, instead of logging
    that it waits. *)
Theorem constructor_raises_before_the_wait :
  (forall (q : Quaternion) (s : Node C),
     exists s', odom_callback (mkOdom 0 0 q) s = (Ok tt, s', []) /\
       current_state s' = current_state s /\
       odom_received s' = odom_received s /\
       initial_position_received s' = initial_position_received s /\
       initial_position s' = initial_position s) /\
  (forall (float : string -> option R)
          (open_ : string -> Res (list (list string)))
          (PATH : string) (p : Params) (trajectory_file : string)
          (inputs : list Input),
     main float open_ PATH p trajectory_file inputs
     = (Crashed (AttributeError "csv_file"), @None (Node C), [])) /\
  (forall (s : Node C) (elapsed : R),
     odom_received s = None ->
     control_loop elapsed s = (Raise (AttributeError "odom_received"), s, [])).
Proof.
  split; [|split].
  - intros q s. eexists. split; [now apply odom_callback_origin|].
    repeat split.
  - reflexivity.
  - intros s elapsed Hnone. unfold control_loop, bind, attr.
    now rewrite Hnone.
Qed.

End StickyStop.

Section TickTheorems.
Context {C : Type} {CC : ControllerClass C} {FP : Doubles}.


(** C5.  Under the "repeat" policy, when the cost-minimising index [i]
    satisfies [i >= L - N], the search returns index 1 and leaves the node
    unchanged (the stop flag stays down), the horizon is taken cyclically
    from index 1, and the tick publishes the solver's command, not a
    stop.  (On a path of a single point the datagram's lookup of
    [path[1]] then raises [IndexError]; from two points on the tick ends
    normally.) *)
Theorem repeat_restarts_at_index_1 (s : Node C) (cs : Pose) (c : C) (i : nat)
    (elapsed : R) :
  odom_received s = Some true ->
  current_state s = Some cs ->
  controller s = Some c ->
  path_type s = Some "repeat"%string ->
  stop s = Some false ->
  closest_index (reference_trajectory s) cs = Some i ->
  (Z.of_nat (length (reference_trajectory s)) - Z.of_nat (ctrl_N c)
   <= Z.of_nat i)%Z ->
  let path := reference_trajectory s in
  let L := length path in
  let N := ctrl_N c in
  let h := horizon path 1 N in
  find_closest_point_index (Some cs) s = (Ok 1%nat, s, [PrintReturnToStart]) /\
  reference_trajectory_N s = (Ok h, s, [PrintReturnToStart]) /\
  (forall k d, (k <= N)%nat ->
     px (nth k h d) = px (nth ((1 + k) mod L) path (mkPose 0 0 0)) /\
     py (nth k h d) = py (nth ((1 + k) mod L) path (mkPose 0 0 0))) /\
  exists x0 r s' t,
    unwrap_current_state (Some cs) h = Ok x0 /\
    control_loop elapsed s = (r, s', t) /\
    published t = [snd (ctrl_solve c x0 h (Np.tile (previous_control s) N))] /\
    stop s' = Some false /\
    ((2 <= L)%nat -> r = Ok tt).
Proof.
  intros Hodom Hcs Hc Hpt Hstop Hi Hend path L N h.
  assert (Hne : near_end L N i = true) by (apply Z.leb_le; exact Hend).
  assert (Hri : resolved_index "repeat" L N i = 1%nat).
  { unfold resolved_index. now rewrite Hne. }
  assert (Hrs : forall N', raises_stop "repeat" L N' i = false).
  { intros N'. unfold raises_stop. apply andb_false_r. }
  assert (Hsp : search_prints "repeat" L N i = [PrintReturnToStart]).
  { unfold search_prints. now rewrite Hne. }
  assert (Has : after_search "repeat" L N i s = s).
  { unfold after_search. now rewrite Hrs. }
  split.
  { rewrite (find_run s cs c i "repeat" Hi Hc Hpt). cbv zeta.
    fold path L N. now rewrite Hri, Has, Hsp. }
  split.
  { rewrite (reference_trajectory_N_run s cs c i "repeat" Hcs Hi Hc Hpt).
    cbv zeta. fold path L N. now rewrite Hri, Has, Hsp. }
  split.
  { intros k d Hk. unfold h. rewrite horizon_nth by exact Hk. split; reflexivity. }
  destruct (tick_facts s cs c i "repeat" false elapsed Hodom Hcs Hi Hc Hpt Hstop)
    as (x0 & r & s' & t & Hx0 & Hrun & Hfacts).
  cbv zeta in Hfacts. fold path L N in Hx0, Hfacts.
  rewrite Hri in Hx0, Hfacts. fold h in Hx0, Hfacts.
  rewrite !Hrs in Hfacts. cbn [orb] in Hfacts.
  destruct Hfacts as (_ & Hpub & _ & _ & _ & _ & _ & _ & _ & Hst & Hsend).
  exists x0, r, s', t. repeat split; try assumption.
  intros HL. destruct (closest_index_spec _ _ _ Hi) as (HiL & _).
  destruct (nth_error path _) as [cp|] eqn:Hcp; [apply Hsend|].
  apply nth_error_None in Hcp.
  pose proof (resolved_index_bound "repeat" L
    (ctrl_N (fst (ctrl_solve c x0 h (Np.tile (previous_control s) N)))) i HiL HL).
  unfold L, path in *. lia.
Qed.

End TickTheorems.


Section LoadFacts.
Variable float : string -> option R.

Lemma parse_row_ok row p : parse_row float row = Ok p <-> row_is float row p.
Proof.
  split.
  - unfold parse_row. destruct row as [|a [|b [|c [|d r]]]]; try discriminate.
    destruct (float a) as [x|] eqn:Ea; try discriminate.
    destruct (float b) as [y|] eqn:Eb; try discriminate.
    destruct (float c) as [th|] eqn:Ec; try discriminate.
    intros [= <-]. exists a, b, c. now repeat split.
  - intros (a & b & c & -> & Ha & Hb & Hc). unfold parse_row.
    rewrite Ha, Hb, Hc. destruct p; reflexivity.
Qed.

Lemma parse_row_fails row :
  (exists p, parse_row float row = Ok p) \/ parse_row float row = Raise ValueError.
Proof.
  unfold parse_row. destruct row as [|a [|b [|c [|d r]]]]; auto.
  destruct (float a); auto. destruct (float b); auto. destruct (float c); eauto.
Qed.

Lemma parse_rows_ok rows : forall path,
  parse_rows float rows = Ok path <-> Forall2 (row_is float) rows path.
Proof.
  induction rows as [|row rest IH]; intros path; simpl.
  - split.
    + intros [= <-]. constructor.
    + intros H. inversion H. reflexivity.
  - split.
    + destruct (parse_row float row) as [p|e] eqn:Ep; [|discriminate].
      destruct (parse_rows float rest) as [ps|e] eqn:Eps; [|discriminate].
      intros [= <-]. constructor; [now apply parse_row_ok|now apply IH].
    + intros H. inversion H as [|? p ? ps Hrow Hrest]; subst.
      apply parse_row_ok in Hrow. apply IH in Hrest.
      now rewrite Hrow, Hrest.
Qed.

Lemma parse_rows_fails rows :
  (exists path, parse_rows float rows = Ok path)
  \/ (parse_rows float rows = Raise ValueError /\
      Exists (malformed float) rows).
Proof.
  induction rows as [|row rest IH]; simpl; [left; eauto|].
  destruct (parse_row_fails row) as [[p Hp]|Hf].
  - rewrite Hp. destruct IH as [[ps Hps]|[Hf He]].
    + rewrite Hps. left; eauto.
    + rewrite Hf. right. split; [reflexivity|]. now apply Exists_cons_tl.
  - rewrite Hf. right. split; [reflexivity|]. apply Exists_cons_hd.
    intros p Hp. apply parse_row_ok in Hp. congruence.
Qed.

(** C7, amended.  Loading raises [StopIteration] on a file with no row
    at all.  Otherwise the first row is consumed unparsed, and the result
    is exactly the rows after it, each parsed as three floats, in order
    (one entry fewer than the file has rows, possibly none), or
    [ValueError] when one of those rows does not parse as exactly three
    floats. *)
Theorem load_trajectory_skips_header :
  load_trajectory float [] = Raise StopIteration /\
  forall (header : list string) (data : list (list string)),
    (forall path,
       load_trajectory float (header :: data) = Ok path <->
       Forall2 (row_is float) data path) /\
    ((exists path, load_trajectory float (header :: data) = Ok path /\
                   length path = length data)
     \/ (load_trajectory float (header :: data) = Raise ValueError /\
         Exists (malformed float) data)).
Proof.
  split; [reflexivity|]. intros header data. cbn [load_trajectory]. split.
  - apply parse_rows_ok.
  - destruct (parse_rows_fails data) as [[path Hp]|H]; [left|right; exact H].
    exists path. split; [exact Hp|].
    apply parse_rows_ok in Hp. symmetry. eapply Forall2_length; eauto.
Qed.

End LoadFacts.

(* ================================================================= *)
(** ** Rotating the path *)

Lemma rotate_length {A} r (l : list A) : length (rotate r l) = length l.
Proof.
  unfold rotate. rewrite length_app, length_skipn, length_firstn.
  destruct l as [|a l]; [simpl; lia|].
  pose proof (Nat.mod_upper_bound r (length (a :: l)) ltac:(simpl; lia)). lia.
Qed.

Lemma rotate_nth {A} r (l : list A) d j :
  (j < length l)%nat ->
  nth j (rotate r l) d = nth ((j + r) mod length l) l d.
Proof.
  intros Hj. unfold rotate.
  set (L := length l) in *.
  assert (HL : (L <> 0)%nat) by lia.
  pose proof (Nat.mod_upper_bound r L HL) as Hr.
  rewrite <- (Nat.Div0.add_mod_idemp_r j r L).
  set (r' := (r mod L)%nat) in *.
  destruct (Nat.lt_ge_cases j (L - r')) as [Hlt|Hge].
  - rewrite app_nth1 by (rewrite length_skipn; fold L; lia).
    rewrite nth_skipn. rewrite Nat.mod_small by lia. f_equal. lia.
  - rewrite app_nth2 by (rewrite length_skipn; fold L; lia).
    rewrite length_skipn. fold L.
    rewrite nth_firstn.
    assert (E : (j - (L - r') <? r')%nat = true) by (apply Nat.ltb_lt; lia).
    rewrite E. f_equal.
    replace (j + r')%nat with ((j - (L - r')) + 1 * L)%nat by lia.
    rewrite Nat.Div0.mod_add. rewrite Nat.mod_small by lia. reflexivity.
Qed.

Section Rotation.
Context {FP : Doubles}.

(** When [np.unwrap] gives every path point the same orientation before
    and after the rotation, the costs are the same doubles, rotated. *)
Lemma cost_at_rotate path pose r j :
  Fl.unwrap (map ptheta (rotate r path))
  = rotate r (Fl.unwrap (map ptheta path)) ->
  (j < length path)%nat ->
  cost_at (rotate r path) pose j = cost_at path pose ((j + r) mod length path).
Proof.
  intros Hu Hj. unfold cost_at. cbv zeta.
  rewrite rotate_nth by exact Hj. rewrite Hu.
  rewrite rotate_nth by (now rewrite fl_unwrap_length, length_map).
  now rewrite fl_unwrap_length, length_map.
Qed.

End Rotation.

Lemma rotated_index (L i r j : nat) :
  (i < L)%nat -> (j < L)%nat ->
  ((j + r) mod L = i <-> j = (i + (L - r mod L)) mod L)%nat.
Proof.
  intros Hi Hj.
  assert (HL : (L <> 0)%nat) by lia.
  pose proof (Nat.mod_upper_bound r L HL) as Hr.
  rewrite <- (Nat.Div0.add_mod_idemp_r j r L).
  set (r' := (r mod L)%nat) in *.
  split.
  - intros <-.
    destruct (Nat.lt_ge_cases (j + r') L) as [Hlt|Hge].
    + rewrite (Nat.mod_small (j + r')) by lia.
      replace (j + r' + (L - r'))%nat with (j + 1 * L)%nat by lia.
      rewrite Nat.Div0.mod_add. now rewrite Nat.mod_small.
    + replace (j + r')%nat with ((j + r' - L) + 1 * L)%nat at 1 by lia.
      rewrite Nat.Div0.mod_add. rewrite (Nat.mod_small (j + r' - L)) by lia.
      replace (j + r' - L + (L - r'))%nat with j by lia.
      now rewrite Nat.mod_small.
  - intros ->.
    destruct (Nat.lt_ge_cases (i + (L - r')) L) as [Hlt|Hge].
    + rewrite (Nat.mod_small (i + (L - r'))) by lia.
      replace (i + (L - r') + r')%nat with (i + 1 * L)%nat by lia.
      rewrite Nat.Div0.mod_add. now rewrite Nat.mod_small.
    + replace (i + (L - r'))%nat with ((i - r') + 1 * L)%nat at 1 by lia.
      rewrite Nat.Div0.mod_add. rewrite (Nat.mod_small (i - r')) by lia.
      replace (i - r' + r')%nat with i by lia.
      now rewrite Nat.mod_small.
Qed.

Lemma rotated_index_Z (L i r : nat) :
  (i < L)%nat ->
  Z.of_nat ((i + (L - r mod L)) mod L)
  = ((Z.of_nat i - Z.of_nat r) mod Z.of_nat L)%Z.
Proof.
  intros Hi.
  assert (HL : (L <> 0)%nat) by lia.
  pose proof (Nat.mod_upper_bound r L HL) as Hr.
  rewrite Nat2Z.inj_mod, Nat2Z.inj_add, Nat2Z.inj_sub by lia.
  rewrite Nat2Z.inj_mod.
  rewrite (Z.mod_eq (Z.of_nat r) (Z.of_nat L)) by lia.
  replace (Z.of_nat i + (Z.of_nat L - (Z.of_nat r - Z.of_nat L * (Z.of_nat r / Z.of_nat L))))%Z
    with (Z.of_nat i - Z.of_nat r + (1 + Z.of_nat r / Z.of_nat L) * Z.of_nat L)%Z by ring.
  apply Z.mod_add. lia.
Qed.

Section RotationTheorem.
Context {FP : Doubles}.


End RotationTheorem.

(* ================================================================= *)
(** ** Evaluating the fixtures *)

Lemma ph_correct_small dd : Rabs dd < PI -> Np.ph_correct dd = 0.
Proof.
  intros H. unfold Np.ph_correct. replace (2 * PI / 2) with PI by lra.
  apply ltb_true in H. now rewrite H.
Qed.

Lemma arctan2_0_1 : Np.arctan2 0 1 = 0.
Proof.
  unfold Np.arctan2. assert (E : Np.ltb 0 1 = true) by (apply ltb_true; lra).
  rewrite E. replace (0 / 1) with 0 by lra. apply atan_0.
Qed.

(** The search in exact arithmetic, on the fixtures. *)
Lemma exact_cost_at path pose i :
  cost_at path pose i
  = (let p := nth i path (mkPose 0 0 0) in
     sqrt ((px p - px pose) * (px p - px pose)
           + (py p - py pose) * (py p - py pose))
     + 2 / 10 * Rabs (angleDiff (nth i (Fl.unwrap (map ptheta path)) 0)
                                (ptheta pose))).
Proof. reflexivity. Qed.

Lemma angleDiff_same a : angleDiff a a = 0.
Proof.
  change (angleDiff a a) with (Np.arctan2 (sin (a - a)) (cos (a - a))).
  replace (a - a) with 0 by lra.
  rewrite sin_0, cos_0. apply arctan2_0_1.
Qed.

Lemma cost_at_ge_distance path pose j :
  let p := nth j path (mkPose 0 0 0) in
  sqrt ((px p - px pose) * (px p - px pose) + (py p - py pose) * (py p - py pose))
  <= cost_at path pose j.
Proof.
  cbv zeta. rewrite exact_cost_at. cbv zeta.
  pose proof (Rabs_pos (angleDiff (nth j (Fl.unwrap (map ptheta path)) 0) (ptheta pose))).
  lra.
Qed.

Lemma zeros_are_continuous n : continuous_from 0 (repeat 0 n).
Proof.
  induction n as [|n IH]; [exact I|]. split; [|exact IH].
  change (Rabs (0 - 0) < 2 * PI / 2).
  replace (0 - 0) with 0 by lra. rewrite Rabs_R0. pose proof PI_RGT_0. lra.
Qed.

Lemma unwrap_zeros3 : Fl.unwrap [0; 0; 0] = [0; 0; 0].
Proof. exact (fl_unwrap_fixed 0 [0; 0] (zeros_are_continuous 2)). Qed.

Lemma unwrap_zeros2 : Fl.unwrap [0; 0] = [0; 0].
Proof. exact (fl_unwrap_fixed 0 [0] (zeros_are_continuous 1)). Qed.

Lemma path3_minimum : cost_at path3 pose1 1 = 0.
Proof.
  rewrite exact_cost_at. unfold path3, pose1. cbn [nth map px py ptheta].
  rewrite unwrap_zeros3. cbn [nth]. rewrite angleDiff_same, Rabs_R0.
  replace ((1 - 1) * (1 - 1) + (0 - 0) * (0 - 0)) with 0 by ring.
  rewrite sqrt_0. lra.
Qed.

Lemma path3_others j :
  (j < length path3)%nat -> j <> 1%nat ->
  cost_at path3 pose1 1 < cost_at path3 pose1 j.
Proof.
  intros Hj Hne. rewrite path3_minimum.
  eapply Rlt_le_trans; [|apply cost_at_ge_distance].
  apply sqrt_lt_R0.
  destruct j as [|[|[|j]]]; [| congruence | | simpl in Hj; lia];
    unfold path3, pose1; cbn [nth px py]; lra.
Qed.

Lemma path3_closest : closest_index path3 pose1 = Some 1%nat.
Proof.
  apply closest_index_unique; [simpl; lia|]. apply path3_others.
Qed.

Lemma path3_unwrap_rotates :
  Fl.unwrap (map ptheta (rotate 1 path3))
  = rotate 1 (Fl.unwrap (map ptheta path3)).
Proof.
  change (map ptheta (rotate 1 path3)) with [0; 0; 0].
  change (map ptheta path3) with [0; 0; 0].
  rewrite unwrap_zeros3. reflexivity.
Qed.

Lemma tie_cost (x : R) (j : nat) (path : list Pose) :
  (x - 1) * (x - 1) = 1 ->
  nth j path (mkPose 0 0 0) = mkPose x 1 0 ->
  nth j (Fl.unwrap (map ptheta path)) 0 = 0 ->
  cost_at path pose_between j = 1.
Proof.
  intros Hx Hp Hth. rewrite exact_cost_at. cbv zeta. rewrite Hp, Hth.
  unfold pose_between. cbn [px py ptheta].
  rewrite angleDiff_same, Rabs_R0.
  replace ((x - 1) * (x - 1) + (1 - 1) * (1 - 1)) with ((x - 1) * (x - 1))
    by ring.
  rewrite Hx, sqrt_1. lra.
Qed.

Lemma tie_closest (a b : R) :
  (a - 1) * (a - 1) = 1 -> (b - 1) * (b - 1) = 1 ->
  closest_index [mkPose a 1 0; mkPose b 1 0] pose_between = Some 0%nat.
Proof.
  intros Ha Hb.
  assert (Hu : Fl.unwrap (map ptheta [mkPose a 1 0; mkPose b 1 0]) = [0; 0])
    by exact unwrap_zeros2.
  set (path := [mkPose a 1 0; mkPose b 1 0]) in *.
  assert (H0 : cost_at path pose_between 0 = 1)
    by (apply (tie_cost a); [exact Ha|reflexivity|now rewrite Hu]).
  assert (H1 : cost_at path pose_between 1 = 1)
    by (apply (tie_cost b); [exact Hb|reflexivity|now rewrite Hu]).
  apply closest_index_first_min; [simpl; lia| |intros j Hj; lia].
  intros j Hj. rewrite H0.
  destruct j as [|[|j]]; [rewrite H0|rewrite H1|simpl in Hj; lia]; lra.
Qed.



(** C7 as stated fails: a file of one well-formed row loads as the
    empty path, and so does a file that holds only a header. *)
Lemma single_row_file_loads_empty :
  ~ load_contract float_literal [["1"; "2"; "3"]%string] /\
  load_trajectory float_literal [["1"; "2"; "3"]%string] = Ok [] /\
  load_trajectory float_literal [["x"; "y"; "theta"]%string] = Ok [].
Proof.
  split; [|split; reflexivity].
  unfold load_contract. intros [_ H].
  destruct H as (path & Hl & _ & Hlen).
  - discriminate.
  - constructor; [|constructor]. intros Hbad.
    apply (Hbad (mkPose 1 2 3)).
    exists "1"%string, "2"%string, "3"%string. repeat split.
  - cbn in Hl. injection Hl as <-. simpl in Hlen. lia.
Qed.

Section SearchTheorem.
Context {FP : Doubles}.

(** C3.  On a non-empty path the index computed on line 171 is the
    smallest index minimising [cost_at], the cost as the code computes
    it in double precision; the orientation term is wrapped into
    (-pi, pi]; and [find_closest_point_index] returns that index unless
    the "repeat" policy replaces it near the end of the path. *)
Theorem nearest_index_is_first_minimiser (p0 : Pose) (rest : list Pose)
    (pose : Pose) :
  let path := p0 :: rest in
  exists i,
    closest_index path pose = Some i /\
    (i < length path)%nat /\
    (forall j, (j < length path)%nat ->
               cost_at path pose i <= cost_at path pose j) /\
    (forall j, (j < i)%nat -> cost_at path pose i < cost_at path pose j) /\
    (forall a b, - PI < angleDiff a b <= PI) /\
    (forall (C : Type) (CC : ControllerClass C) (s : Node C) (c : C)
            (pt : string),
       reference_trajectory s = path ->
       controller s = Some c ->
       path_type s = Some pt ->
       near_end (length path) (ctrl_N c) i = false \/ pt <> "repeat"%string ->
       fst (fst (find_closest_point_index (Some pose) s)) = Ok i).
Proof.
  intros path.
  destruct (closest_index_total path pose) as [i Hi]; [discriminate|].
  destruct (closest_index_spec _ _ _ Hi) as (H1 & H2 & H3).
  exists i. repeat split; try assumption.
  - apply fl_arctan2_range.
  - apply fl_arctan2_range.
  - intros C CC s c pt Hp Hc Hpt Hcase.
    rewrite <- Hp in Hi.
    rewrite (find_run s pose c i pt Hi Hc Hpt). cbn [fst]. rewrite Hp.
    unfold resolved_index.
    destruct (near_end (length path) (ctrl_N c) i); [|reflexivity].
    destruct (String.eqb pt "stop"); [reflexivity|].
    destruct (String.eqb_spec pt "repeat"); [|reflexivity].
    destruct Hcase; [discriminate|contradiction].
Qed.

End SearchTheorem.

(** C2, evaluated on the code.  Two ticks with a solver that answers
    (0.5, 0): the first tick publishes (0.5, 0), yet the stored previous
    control is still (0, 0), and the second tick hands the solver ten
    copies of (0, 0) as reference controls, not ten copies of the command
    just published. *)
Theorem previous_control_is_never_stored (e1 e2 : R) :
  exists s1 t1 s2 t2,
    control_loop e1 (tracking_node "repeat" false) = (Ok tt, s1, t1) /\
    published t1 = [(1 / 2, 0)] /\
    previous_control s1 = (0, 0) /\
    control_loop e2 s1 = (Ok tt, s2, t2) /\
    published t2 = [(1 / 2, 0)] /\
    map snd (solver_calls t2) = [Np.tile (0, 0) 10] /\
    Np.tile (0, 0) 10 <> Np.tile ((1 / 2, 0) : Control) 10.
Proof.
  destruct (tick_facts (tracking_node "repeat" false) pose1 10%nat 1 "repeat" false e1
              eq_refl eq_refl path3_closest eq_refl eq_refl eq_refl)
    as (x0 & r & s1 & t1 & Hx0 & Hrun & Hfacts).
  cbv zeta in Hfacts.
  destruct Hfacts as (Hsc & Hpub & Hprev & Hodom & Hcs & Hpath & Hpt & Hc & Hoc & Hst & Hsend).
  cbn in Hsend. destruct Hsend as (-> & _).
  cbn in Hpub, Hprev, Hpath, Hc, Hst.
  assert (Hi1 : closest_index (reference_trajectory s1) pose1 = Some 1%nat)
    by (rewrite Hpath; exact path3_closest).
  destruct (tick_facts s1 pose1 10%nat 1 "repeat" false e2
              Hodom Hcs Hi1 Hc Hpt Hst)
    as (x1 & r2 & s2 & t2 & Hx1 & Hrun2 & Hfacts2).
  cbv zeta in Hfacts2.
  destruct Hfacts2 as (Hsc2 & Hpub2 & _ & _ & _ & _ & _ & _ & _ & _ & Hsend2).
  rewrite Hpath in Hsend2, Hsc2, Hpub2. rewrite Hprev in Hsc2.
  cbn in Hsend2. destruct Hsend2 as (-> & _).
  cbn in Hpub2.
  exists s1, t1, s2, t2. repeat split; try assumption.
  - rewrite Hsc2. reflexivity.
  - cbn. intros E. injection E as E _. lra.
Qed.

Lemma stop_is_sticky_witness :
  exists s1 t1 s2 t2,
    deliver (TimerFired (1 / 10)) (Spinning, tracking_node "stop" false)
      = (Spinning, s1, t1) /\
    stop s1 = Some true /\
    published t1 = [(0, 0)] /\
    run drive_away (Spinning, s1) = (Spinning, s2, t2) /\
    stop s2 = Some true /\
    published t2 = repeat (0, 0) (timer_expiries drive_away).
Proof.
  apply (stop_is_sticky (tracking_node "stop" false) pose1 10%nat 1 false
           (1 / 10) drive_away);
    try reflexivity.
  - exact path3_closest.
  - simpl. lia.
Defined.


Lemma repeat_restarts_witness :
  find_closest_point_index (Some pose1) (tracking_node "repeat" false)
    = (Ok 1%nat, tracking_node "repeat" false, [PrintReturnToStart]) /\
  reference_trajectory_N (tracking_node "repeat" false)
    = (Ok (horizon path3 1 10), tracking_node "repeat" false,
       [PrintReturnToStart]) /\
  (forall k d, (k <= 10)%nat ->
     px (nth k (horizon path3 1 10) d)
       = px (nth ((1 + k) mod 3) path3 (mkPose 0 0 0)) /\
     py (nth k (horizon path3 1 10) d)
       = py (nth ((1 + k) mod 3) path3 (mkPose 0 0 0))) /\
  exists x0 r s' t,
    unwrap_current_state (Some pose1) (horizon path3 1 10) = Ok x0 /\
    control_loop (1 / 10) (tracking_node "repeat" false) = (r, s', t) /\
    published t = [(1 / 2, 0)] /\
    stop s' = Some false /\
    ((2 <= 3)%nat -> r = Ok tt).
Proof.
  refine (repeat_restarts_at_index_1 (tracking_node "repeat" false) pose1
            10%nat 1 (1 / 10) eq_refl eq_refl eq_refl eq_refl eq_refl
            path3_closest _).
  simpl. lia.
Defined.

(* ================================================================= *)
(** ** Beyond the specification: more of what the code does *)

(** [arctan2 (sin t) (cos t)] gives [t] back on (-pi, pi]. *)
Lemma tan_shift u : cos u <> 0 -> sin (u + PI) / cos (u + PI) = tan u.
Proof.
  intros H. rewrite neg_sin, neg_cos. unfold tan. field. exact H.
Qed.

Lemma arctan2_sin_cos t : - PI < t <= PI -> Np.arctan2 (sin t) (cos t) = t.
Proof.
  intros [Hlo Hhi]. pose proof PI_RGT_0 as Hpi.
  unfold Np.arctan2.
  destruct (Np.ltb 0 (cos t)) eqn:E1.
  - apply ltb_true in E1.
    assert (- (PI / 2) < t < PI / 2).
    { split.
      - destruct (Rlt_le_dec (- (PI / 2)) t) as [|Hc]; [assumption|].
        pose proof (cos_le_0 (- t) ltac:(lra) ltac:(lra)) as H.
        rewrite cos_neg in H. lra.
      - destruct (Rlt_le_dec t (PI / 2)) as [|Hc]; [assumption|].
        pose proof (cos_le_0 t ltac:(lra) ltac:(lra)). lra. }
    change (sin t / cos t) with (tan t). now apply atan_tan.
  - apply ltb_false in E1.
    destruct (Np.ltb (cos t) 0) eqn:E2.
    + apply ltb_true in E2.
      assert (Hout : t < - (PI / 2) \/ PI / 2 < t).
      { destruct (Rlt_le_dec t (- (PI / 2))) as [|Ha]; [now left|].
        destruct (Rlt_le_dec (PI / 2) t) as [|Hb]; [now right|].
        pose proof (cos_ge_0 t Ha Hb). lra. }
      destruct (Np.leb 0 (sin t)) eqn:E3.
      * apply leb_true in E3.
        assert (PI / 2 < t).
        { destruct Hout as [Hneg|]; [|assumption].
          pose proof (sin_lt_0_var t Hlo ltac:(lra)). lra. }
        replace t with ((t - PI) + PI) at 1 2 by ring.
        assert (Hc : 0 < cos (t - PI) \/ t = PI).
        { destruct (Req_dec t PI) as [|Hne]; [now right|left].
          apply cos_gt_0; lra. }
        destruct Hc as [Hc| ->].
        -- rewrite tan_shift by lra. rewrite atan_tan by lra. ring.
        -- replace (PI - PI + PI) with PI by ring. rewrite sin_PI.
           unfold Rdiv. rewrite Rmult_0_l, atan_0. ring.
      * apply leb_false in E3.
        assert (t < - (PI / 2)).
        { destruct Hout as [|Hpos]; [assumption|].
          pose proof (sin_ge_0 t ltac:(lra) Hhi). lra. }
        assert (Hs : sin t / cos t = tan (t + PI)).
        { unfold tan. rewrite neg_sin, neg_cos. field. lra. }
        rewrite Hs, atan_tan by lra. ring.
    + apply ltb_false in E2. assert (Hc0 : cos t = 0) by lra.
      assert (Ht : t = PI / 2 \/ t = - (PI / 2)).
      { destruct (Rtotal_order t (PI / 2)) as [Hlt|[Heq|Hgt]]; [|now left|].
        - destruct (Rtotal_order t (- (PI / 2))) as [Hlt2|[Heq2|Hgt2]]; [|now right|].
          + pose proof (cos_lt_0 (- t) ltac:(lra) ltac:(lra)) as H.
            rewrite cos_neg in H. lra.
          + pose proof (cos_gt_0 t Hgt2 Hlt). lra.
        - pose proof (cos_lt_0 t Hgt ltac:(lra)). lra. }
      destruct Ht as [-> | ->].
      * rewrite sin_PI2. assert (E : Np.ltb 0 1 = true) by (apply ltb_true; lra).
        now rewrite E.
      * rewrite sin_neg, sin_PI2.
        assert (E : Np.ltb 0 (Ropp 1) = false) by (apply ltb_false; lra).
        assert (E' : Np.ltb (Ropp 1) 0 = true) by (apply ltb_true; lra).
        rewrite E, E'. lra.
Qed.

(** X2.  [euler_from_quaternion] gives back the yaw of a rotation about
    the vertical axis: for [t] in (-pi, pi] the quaternion
    [(0, 0, sin(t/2), cos(t/2))] has roll 0, pitch 0 and yaw [t]. *)
Theorem euler_of_yaw_quaternion (t : R) :
  - PI < t <= PI ->
  euler_from_quaternion (yaw_quaternion t) = (0, 0, t).
Proof.
  intros Ht. unfold euler_from_quaternion, yaw_quaternion. cbn [qx qy qz qw].
  replace (2 * (cos (t / 2) * 0 + 0 * sin (t / 2))) with 0 by ring.
  replace (1 - 2 * (0 * 0 + 0 * 0)) with 1 by ring.
  replace (2 * (cos (t / 2) * 0 - sin (t / 2) * 0)) with 0 by ring.
  replace (2 * (cos (t / 2) * sin (t / 2) + 0 * 0)) with (sin t).
  2:{ replace t with (2 * (t / 2)) at 1 by field. rewrite sin_2a. ring. }
  replace (1 - 2 * (0 * 0 + sin (t / 2) * sin (t / 2))) with (cos t).
  2:{ replace t with (2 * (t / 2)) at 1 by field. rewrite cos_2a_sin. ring. }
  rewrite arctan2_0_1, asin_0, arctan2_sin_cos by exact Ht. reflexivity.
Qed.

Section Odom.
Context {C : Type} {CC : ControllerClass C} {FP : Doubles}.

Lemma origin_test msg :
  Np.eqb (position_x msg) 0 && Np.eqb (position_y msg) 0 = false <-> ~ at_origin msg.
Proof.
  unfold at_origin. rewrite andb_false_iff, !eqb_false. split.
  - intros [H|H] [Hx Hy]; contradiction.
  - intros H. destruct (Req_dec (position_x msg) 0); [right|left]; tauto.
Qed.

Lemma odom_callback_fresh_pose (msg : Odometry) (s : Node C) :
  ~ at_origin msg ->
  exists s',
    odom_callback msg s = (Ok tt, s', []) /\
    current_state s' = Some (pose_of msg) /\
    - PI < ptheta (pose_of msg) <= PI /\
    odom_received s' = Some true /\
    initial_position_received s' = true /\
    initial_position s'
      = (if initial_position_received s then initial_position s
         else Some (pose_of msg)) /\
    previous_control s' = previous_control s /\
    reference_trajectory s' = reference_trajectory s /\
    params s' = params s /\ PATH_TYPE s' = PATH_TYPE s /\
    controller s' = controller s /\ path_type s' = path_type s /\
    stop s' = stop s.
Proof.
  intros Hno. apply origin_test in Hno.
  unfold odom_callback, bind, modify, attr. cbn.
  rewrite Hno.
  destruct (initial_position_received s) eqn:E; cbn; rewrite ?E; cbn;
    (eexists; split; [reflexivity|]); cbn; rewrite ?E;
    repeat split; try reflexivity; apply arctan2_range.
Qed.

(** X3.  A pose away from the origin is accepted: the callback stores
    [(x, y, yaw)] with the yaw in (-pi, pi], marks odometry as received,
    records the initial position if none was recorded yet, and touches
    neither the path, the previous control, the controller nor the stop
    flag. *)
Theorem odom_callback_accepts (msg : Odometry) (s : Node C) :
  ~ at_origin msg ->
  exists s',
    odom_callback msg s = (Ok tt, s', []) /\
    current_state s' = Some (pose_of msg) /\
    - PI < ptheta (pose_of msg) <= PI /\
    odom_received s' = Some true /\
    initial_position_received s' = true /\
    initial_position s'
      = (if initial_position_received s then initial_position s
         else Some (pose_of msg)) /\
    previous_control s' = previous_control s /\
    reference_trajectory s' = reference_trajectory s /\
    params s' = params s /\ PATH_TYPE s' = PATH_TYPE s /\
    controller s' = controller s /\ path_type s' = path_type s /\
    stop s' = stop s.
Proof. exact (odom_callback_fresh_pose msg s). Qed.

Lemma odom_callback_state_origin msg (s : Node C) :
  at_origin msg ->
  let s' := snd (fst (odom_callback msg s)) in
  current_state s' = current_state s /\
  initial_position s' = initial_position s /\
  initial_position_received s' = initial_position_received s.
Proof.
  intros [Hx Hy]. cbv zeta. rewrite (odom_callback_origin msg s Hx Hy).
  repeat split.
Qed.

(** X4.  Over any feed of odometry messages the stored state is the pose
    of the last message away from the origin, while the initial position
    is latched: once recorded it never changes, and otherwise it becomes
    the pose of the first message away from the origin. *)
Theorem initial_position_is_latched (msgs : list Odometry) : forall (s : Node C),
  let s' := callbacks msgs s in
  current_state s' = last_accepted msgs (current_state s) /\
  initial_position s'
    = (if initial_position_received s then initial_position s
       else match first_accepted msgs with
            | Some p => Some p
            | None => initial_position s
            end).
Proof.
  induction msgs as [|msg rest IH]; intros s; cbn [callbacks last_accepted first_accepted].
  - split; [reflexivity|]. now destruct (initial_position_received s).
  - destruct (Np.eqb (position_x msg) 0 && Np.eqb (position_y msg) 0) eqn:E.
    + assert (Ho : at_origin msg).
      { apply andb_true_iff in E. destruct E as [E1 E2].
        now apply eqb_true in E1; apply eqb_true in E2. }
      destruct (odom_callback_state_origin msg s Ho) as (H1 & H2 & H3).
      specialize (IH (snd (fst (odom_callback msg s)))). cbv zeta in IH.
      rewrite H1, H2, H3 in IH. exact IH.
    + apply origin_test in E.
      destruct (odom_callback_fresh_pose msg s E)
        as (s1 & Hrun & H1 & _ & _ & H3 & H4 & _).
      rewrite Hrun. cbn [fst snd].
      specialize (IH s1). cbv zeta in IH. rewrite H1, H3, H4 in IH.
      destruct IH as [IHa IHb]. split; [exact IHa|].
      rewrite IHb. now destruct (initial_position_received s).
Qed.

End Odom.

(** [unwrap_current_state] corrects by one turn at most. *)
Lemma unwrap_current_state_bound (cs r0 : Pose) (rest : list Pose) :
  Rabs (ptheta cs - ptheta r0) <= 3 * PI ->
  exists x0 (k : Z),
    unwrap_current_state (Some cs) (r0 :: rest) = Ok x0 /\
    Rabs (ptheta x0 - ptheta r0) <= PI /\
    ptheta x0 = ptheta cs + 2 * PI * IZR k /\
    (-1 <= k <= 1)%Z.
Proof.
  intros H. pose proof PI_RGT_0 as Hpi.
  unfold unwrap_current_state.
  destruct (Np.ltb PI (Rabs (ptheta cs - ptheta r0))) eqn:E1.
  - apply ltb_true in E1.
    destruct (Np.ltb 0 (ptheta cs - ptheta r0)) eqn:E2.
    + apply ltb_true in E2. rewrite Rabs_right in H, E1 by lra.
      eexists _, (-1)%Z. split; [reflexivity|]. cbn [ptheta].
      repeat split; try lia; [apply Rabs_le|]; lra.
    + apply ltb_false in E2. rewrite Rabs_left1 in H, E1 by lra.
      eexists _, 1%Z. split; [reflexivity|]. cbn [ptheta].
      repeat split; try lia; [apply Rabs_le|]; lra.
  - apply ltb_false in E1.
    eexists _, 0%Z. split; [reflexivity|]. cbn [ptheta].
    repeat split; try lia; lra.
Qed.


Lemma principal_angles_close a b :
  - PI < a <= PI -> - PI <= b <= PI -> Rabs (a - b) <= 3 * PI.
Proof. intros Ha Hb. pose proof PI_RGT_0. apply Rabs_le. lra. Qed.

Lemma principal_nth path j :
  Forall principal path -> (j < length path)%nat ->
  principal (nth j path (mkPose 0 0 0)).
Proof. intros H Hj. now apply Forall_nth. Qed.

Lemma solver_call_well_posed path cs i N x0 :
  path <> [] ->
  - PI < ptheta cs <= PI ->
  unwrap_current_state (Some cs) (horizon path i N) = Ok x0 ->
  well_posed path (x0, horizon path i N, Np.tile (0, 0) N).
Proof.
  intros Hne Hcs Hx0. unfold well_posed, Np.tile. rewrite repeat_length.
  split; [reflexivity|]. split; [rewrite horizon_length; lia|]. split.
  - intros k Hk. now apply horizon_steps.
  - intros Hall.
    destruct (horizon_cons path i N) as (r0 & rest & E).
    pose proof (horizon_head path i N Hne) as Hh. rewrite E in Hh, Hx0 |- *.
    cbn [nth] in Hh |- *.
    assert (Hr0 : principal r0).
    { rewrite Hh. apply principal_nth; [exact Hall|].
      apply Nat.mod_upper_bound. destruct path; [congruence|discriminate]. }
    destruct (unwrap_current_state_bound cs r0 rest) as (x1 & k & Hx1 & Hb & _).
    { apply principal_angles_close; assumption. }
    rewrite Hx0 in Hx1. injection Hx1 as <-. exact Hb.
Qed.

Section LifeFacts.
Context {C : Type} {CC : ControllerClass C} {FP : Doubles}.

Lemma tick_on_empty_path (s : Node C) cs elapsed :
  odom_received s = Some true ->
  current_state s = Some cs ->
  reference_trajectory s = [] ->
  control_loop elapsed s = (Raise IndexError, s, []).
Proof.
  intros Ho Hcs Hp.
  unfold control_loop, reference_trajectory_N, find_closest_point_index,
    bind, attr, get, subscriptable, ret, raise.
  rewrite Ho. cbn [negb]. rewrite Hcs, Hp. reflexivity.
Qed.

Lemma init_controller_run (s : Node C) :
  init_controller s =
    if Np.eqb (rate (params s)) 0 then (Raise ZeroDivisionError, s, [])
    else (Ok tt,
          set_stop (Some false)
            (set_path_type (Some (PATH_TYPE s))
               (set_controller
                  (Some (ctrl_init (min_v (params s)) (max_v (params s))
                                   (min_w (params s)) (max_w (params s))
                                   (scale_N (reference_trajectory s))
                                   (1 / rate (params s)))) s)),
          []).
Proof.
  unfold init_controller, bind, get, modify, raise.
  destruct (Np.eqb (rate (params s)) 0); reflexivity.
Qed.

Lemma tracking_tick PATH p trajectory (s : Node C) elapsed :
  tracking PATH trajectory s ->
  exists ph s' t,
    deliver (TimerFired elapsed) (Spinning, s) = (ph, s', t) /\
    alive PATH p trajectory ph s' /\
    Forall (well_posed trajectory) (solver_calls t) /\
    length (published t) = length (solver_calls t).
Proof.
  intros (Ho & (cs & Hcs & Hth) & Hp & (c & Hc) & Hpt & (b & Hb & Hbs) & Hprev).
  cbn [deliver].
  destruct trajectory as [|p0 rest].
  - rewrite (tick_on_empty_path s cs elapsed Ho Hcs Hp).
    eexists _, _, _. split; [reflexivity|]. cbn.
    repeat split; try constructor.
  - assert (Hne : reference_trajectory s <> []) by (rewrite Hp; discriminate).
    set (trajectory := p0 :: rest) in *.
    destruct (closest_index_total (reference_trajectory s) cs Hne) as [i Hi].
    destruct (closest_index_spec _ _ _ Hi) as (HiL & _).
    destruct (tick_facts s cs c i PATH b elapsed Ho Hcs Hi Hc Hpt Hb)
      as (x0 & r & s' & t & Hx0 & Hrun & Hfacts).
    cbv zeta in Hfacts.
    destruct Hfacts as (Hsc & Hpub & Hprev' & Ho' & Hcs' & Hp' & Hpt' & Hc' & _ & Hst & Hsend).
    rewrite Hrun.
    assert (Htr : tracking PATH trajectory s').
    { unfold tracking. rewrite Ho', Hcs', Hp', Hc', Hpt', Hst, Hprev', Hprev, Hp.
      split; [reflexivity|].
      split; [exists cs; split; [reflexivity|exact Hth]|].
      split; [reflexivity|]. split; [eexists; reflexivity|].
      split; [reflexivity|]. split; [|reflexivity].
      eexists. split; [reflexivity|]. intros Hor.
      apply orb_true_iff in Hor. destruct Hor as [Hor|Hrs].
      - apply orb_true_iff in Hor. destruct Hor as [->|Hrs]; [auto|].
        unfold raises_stop in Hrs. apply andb_true_iff in Hrs.
        now apply String.eqb_eq.
      - unfold raises_stop in Hrs. apply andb_true_iff in Hrs.
        now apply String.eqb_eq. }
    assert (Hwp : Forall (well_posed trajectory) (solver_calls t)).
    { rewrite Hsc. constructor; [|constructor]. rewrite Hprev, <- Hp.
      apply (solver_call_well_posed _ cs); assumption. }
    assert (Hlen : length (published t) = length (solver_calls t))
      by (now rewrite Hsc, Hpub).
    destruct (nth_error (reference_trajectory s) _) as [cp|] eqn:Hcp.
    + destruct Hsend as (-> & _).
      exists Spinning, s', t.
      split; [reflexivity|]. split; [exact Htr|]. split; [exact Hwp|exact Hlen].
    + destruct Hsend as (-> & _).
      exists (Crashed IndexError), s', t.
      split; [reflexivity|]. split; [exact I|]. split; [exact Hwp|exact Hlen].
Qed.

End LifeFacts.

Section LifeRuns.
Context {C : Type} {CC : ControllerClass C} {FP : Doubles}.

Lemma origin_decision msg : at_origin msg \/ ~ at_origin msg.
Proof.
  destruct (Np.eqb (position_x msg) 0 && Np.eqb (position_y msg) 0) eqn:E.
  - left. apply andb_true_iff in E. destruct E as [E1 E2].
    split; now apply eqb_true.
  - right. now apply origin_test.
Qed.

Lemma waiting_odom PATH p trajectory (s : Node C) msg :
  waiting PATH p trajectory s ->
  exists ph s',
    deliver (OdomMsg msg) (Constructing, s) = (ph, s', []) /\
    alive PATH p trajectory ph s' /\
    (at_origin msg -> ph = Constructing) /\
    (~ at_origin msg -> rate p = 0 -> ph = Crashed ZeroDivisionError) /\
    (~ at_origin msg -> rate p <> 0 ->
       ph = Spinning /\ current_state s' = Some (pose_of msg) /\
       controller s'
       = Some (ctrl_init (min_v p) (max_v p) (min_w p) (max_w p)
                         (scale_N trajectory) (1 / rate p)) /\
       stop s' = Some false).
Proof.
  intros (HP & Hpar & Htr & Hipr & Hprev). cbn [deliver].
  destruct (origin_decision msg) as [Ho|Hno].
  - destruct Ho as [Hx Hy]. rewrite (odom_callback_origin msg s Hx Hy).
    cbn [initial_position_received set_y_position set_x_position]. rewrite Hipr.
    eexists _, _. split; [reflexivity|]. split; [|split; [|split]].
    + cbn. repeat split; assumption.
    + reflexivity.
    + intros H. exfalso. apply H. now split.
    + intros H. exfalso. apply H. now split.
  - destruct (odom_callback_fresh_pose msg s Hno)
      as (s1 & Hrun & Hcs & Hth & Hodom & Hipr1 & _ & Hprev1 & Htr1 & Hpar1 & HP1 & _ & _ & _).
    rewrite Hrun, Hipr1, init_controller_run, Hpar1, Hpar, Htr1, Htr, HP1, HP.
    destruct (Np.eqb (rate p) 0) eqn:Er.
    + apply eqb_true in Er.
      eexists _, _. split; [reflexivity|]. split; [exact I|].
      split; [intros H; contradiction|]. split; [reflexivity|].
      intros _ H. contradiction.
    + apply eqb_false in Er.
      eexists _, _. split; [reflexivity|]. split; [|split; [|split]].
      * unfold alive, tracking. cbn. rewrite Hodom, Hcs, Htr1, Htr, Hprev1, Hprev.
        split; [reflexivity|].
        split; [exists (pose_of msg); split; [reflexivity|exact Hth]|].
        split; [reflexivity|]. split; [eexists; reflexivity|].
        split; [reflexivity|]. split; [|reflexivity].
        exists false. split; [reflexivity|discriminate].
      * intros H; contradiction.
      * intros _ H; contradiction.
      * intros _ _. cbn. rewrite Hcs. repeat split.
Qed.

Lemma tracking_odom PATH trajectory (s : Node C) msg :
  tracking PATH trajectory s ->
  exists s',
    deliver (OdomMsg msg) (Spinning, s) = (Spinning, s', []) /\
    tracking PATH trajectory s'.
Proof.
  intros (Ho & (cs & Hcs & Hth) & Hp & (c & Hc) & Hpt & (b & Hb & Hbs) & Hprev).
  cbn [deliver].
  destruct (origin_decision msg) as [[Hx Hy]|Hno].
  - rewrite (odom_callback_origin msg s Hx Hy).
    eexists. split; [reflexivity|]. cbn.
    split; [exact Ho|]. split; [eauto|]. split; [exact Hp|].
    split; [eauto|]. split; [exact Hpt|]. split; [eauto|exact Hprev].
  - destruct (odom_callback_fresh_pose msg s Hno)
      as (s1 & Hrun & Hcs1 & Hth1 & Hodom & _ & _ & Hprev1 & Htr1 & _ & _ & Hc1 & Hpt1 & Hst1).
    rewrite Hrun. exists s1. split; [reflexivity|].
    unfold tracking. rewrite Hodom, Hcs1, Htr1, Hc1, Hpt1, Hst1, Hprev1.
    split; [reflexivity|]. split; [eauto|]. split; [exact Hp|].
    split; [eauto|]. split; [exact Hpt|]. split; [eauto|exact Hprev].
Qed.

Lemma alive_step PATH p trajectory inp ph (s : Node C) :
  alive PATH p trajectory ph s ->
  exists ph' s' t,
    deliver inp (ph, s) = (ph', s', t) /\
    alive PATH p trajectory ph' s' /\
    Forall (well_posed trajectory) (solver_calls t) /\
    length (published t) = length (solver_calls t).
Proof.
  intros Hal. destruct ph as [| |e].
  - destruct inp as [msg|elapsed].
    + destruct (waiting_odom PATH p trajectory s msg Hal)
        as (ph' & s' & Hrun & Hal' & _).
      exists ph', s', []. split; [exact Hrun|]. split; [exact Hal'|].
      split; [constructor|reflexivity].
    + exists Constructing, s, []. cbn [deliver].
      split; [reflexivity|]. split; [exact Hal|]. split; [constructor|].
      reflexivity.
  - destruct inp as [msg|elapsed].
    + destruct (tracking_odom PATH trajectory s msg Hal) as (s' & Hrun & Htr).
      exists Spinning, s', []. split; [exact Hrun|]. split; [exact Htr|].
      split; [constructor|reflexivity].
    + destruct (tracking_tick PATH p trajectory s elapsed Hal)
        as (ph' & s' & t & Hrun & Hal' & Hwp & Hlen).
      exists ph', s', t. repeat split; assumption.
  - exists (Crashed e), s, []. cbn [deliver].
    split; [reflexivity|]. split; [exact I|]. split; [constructor|].
    reflexivity.
Qed.

Lemma alive_run PATH p trajectory inputs : forall ph (s : Node C),
  alive PATH p trajectory ph s ->
  exists ph' s' t,
    run inputs (ph, s) = (ph', s', t) /\
    alive PATH p trajectory ph' s' /\
    Forall (well_posed trajectory) (solver_calls t) /\
    length (published t) = length (solver_calls t).
Proof.
  induction inputs as [|inp rest IH]; intros ph s Hal.
  - exists ph, s, []. cbn [run]. split; [reflexivity|]. split; [exact Hal|].
    split; [constructor|reflexivity].
  - destruct (alive_step PATH p trajectory inp ph s Hal)
      as (ph1 & s1 & t1 & Hstep & Hal1 & Hwp1 & Hlen1).
    destruct (IH ph1 s1 Hal1) as (ph2 & s2 & t2 & Hrun & Hal2 & Hwp2 & Hlen2).
    exists ph2, s2, (t1 ++ t2). cbn [run]. rewrite Hstep, Hrun.
    split; [reflexivity|]. split; [exact Hal2|].
    split; [rewrite solver_calls_app; apply Forall_app; now split|].
    rewrite published_app, solver_calls_app, !length_app. lia.
Qed.

Lemma waiting_at_start PATH p trajectory :
  waiting PATH p trajectory (node_at_wait PATH p trajectory : Node C).
Proof. repeat split. Qed.


(** X8.  What every reachable node satisfies.  While constructing, no
    initial position has been received.  While spinning: odometry has
    been received, the stored yaw is in (-pi, pi], the reference
    trajectory is the one loaded, the policy is the class constant, the
    previous control is still zero, and the stop flag is up only under
    the "stop" policy. *)
Theorem spinning_node_invariant (PATH : string) (p : Params)
    (trajectory : list Pose) (inputs : list Input) :
  exists ph (s : Node C) t,
    run inputs (Constructing, node_at_wait PATH p trajectory) = (ph, s, t) /\
    match ph with
    | Constructing =>
        initial_position_received s = false /\
        reference_trajectory s = trajectory /\
        previous_control s = (0, 0)
    | Spinning =>
        odom_received s = Some true /\
        (exists cs, current_state s = Some cs /\ - PI < ptheta cs <= PI) /\
        reference_trajectory s = trajectory /\
        path_type s = Some PATH /\
        previous_control s = (0, 0) /\
        (stop s = Some false \/ stop s = Some true /\ PATH = "stop"%string)
    | Crashed _ => True
    end.
Proof.
  destruct (alive_run PATH p trajectory inputs Constructing _
              (waiting_at_start PATH p trajectory))
    as (ph & s & t & Hrun & Hal & _).
  exists ph, s, t. split; [exact Hrun|].
  destruct ph as [| |e]; [|  |exact I].
  { destruct Hal as (_ & _ & Hp & Hipr & Hprev). repeat split; assumption. }
  destruct Hal as (Ho & Hcs & Hp & _ & Hpt & (b & Hb & Hbs) & Hprev).
  repeat split; try assumption.
  destruct b; [right; auto|now left].
Qed.

End LifeRuns.

Lemma scale_N_at_least_10 (trajectory : list Pose) :
  (10 <= scale_N trajectory)%nat.
Proof.
  unfold scale_N.
  destruct (Nat.ltb_spec (length trajectory) 500) as [Hlt|Hge]; [lia|].
  pose proof (Nat.div_mod_eq (length trajectory) 50) as Hd.
  pose proof (Nat.mod_upper_bound (length trajectory) 50 ltac:(lia)) as Hm.
  lia.
Qed.

(** X1.  [scale_N] is 10 for fewer than 500 points and the floor of
    [L / 50] from 500 points on; it is never below 10, and it is smaller
    than the path exactly when the path has more than 10 points. *)
Theorem scale_N_bounds (trajectory : list Pose) :
  let L := length trajectory in
  let N := scale_N trajectory in
  (10 <= N)%nat /\
  ((L < 500)%nat -> N = 10%nat) /\
  ((500 <= L)%nat -> (50 * N <= L < 50 * N + 50)%nat) /\
  ((N < L)%nat <-> (10 < L)%nat).
Proof.
  cbv zeta. unfold scale_N.
  destruct (Nat.ltb_spec (length trajectory) 500) as [Hlt|Hge].
  - repeat split; intros; lia.
  - pose proof (Nat.div_mod_eq (length trajectory) 50) as Hd.
    pose proof (Nat.mod_upper_bound (length trajectory) 50 ltac:(lia)) as Hm.
    repeat split; intros; try lia.
Qed.

Section Edges.
Context {C : Type} {CC : ControllerClass C} {FP : Doubles}.

Lemma crashed_run inputs e (s : Node C) :
  run inputs (Crashed e, s) = (Crashed e, s, []).
Proof.
  induction inputs as [|inp rest IH]; [reflexivity|].
  cbn [run deliver]. now rewrite IH.
Qed.

(** X9.  On a spinning node whose reference trajectory is empty (what a
    header-only file loads as), a control tick raises [IndexError] in the
    nearest-point search, before any effect: nothing is published, no
    solver call is made, and the node stays crashed whatever arrives
    later. *)
Theorem empty_path_crashes_first_tick (s : Node C) (cs : Pose) (elapsed : R)
    (later : list Input) :
  odom_received s = Some true ->
  current_state s = Some cs ->
  reference_trajectory s = [] ->
  find_closest_point_index (Some cs) s = (Raise IndexError, s, []) /\
  control_loop elapsed s = (Raise IndexError, s, []) /\
  run (TimerFired elapsed :: later) (Spinning, s) = (Crashed IndexError, s, []).
Proof.
  intros Ho Hcs Hp. split; [|split].
  - unfold find_closest_point_index, bind, subscriptable, get, ret, raise.
    now rewrite Hp.
  - now apply (tick_on_empty_path s cs).
  - cbn [run deliver]. rewrite (tick_on_empty_path s cs elapsed Ho Hcs Hp).
    now rewrite crashed_run.
Qed.


(** X11.  On a path of a single point under "repeat" (horizon length at
    least 1), a tick publishes its command and then raises [IndexError]
    in [send_data], which looks up [path[1]]; no datagram is sent. *)
Theorem single_point_repeat_crashes (s : Node C) (cs p0 : Pose) (c : C)
    (b : bool) (elapsed : R) :
  odom_received s = Some true ->
  current_state s = Some cs ->
  reference_trajectory s = [p0] ->
  controller s = Some c ->
  path_type s = Some "repeat"%string ->
  stop s = Some b ->
  (1 <= ctrl_N c)%nat ->
  (forall x h u, (1 <= ctrl_N (fst (ctrl_solve c x h u)))%nat) ->
  exists x0 s' t,
    control_loop elapsed s = (Raise IndexError, s', t) /\
    published t =
      [if b then (0, 0)
       else snd (ctrl_solve c x0 (horizon [p0] 1 (ctrl_N c))
                   (Np.tile (previous_control s) (ctrl_N c)))] /\
    datagrams t = [].
Proof.
  intros Ho Hcs Hp Hc Hpt Hst HN HN'.
  assert (Hi : closest_index (reference_trajectory s) cs = Some 0%nat)
    by (rewrite Hp; reflexivity).
  destruct (tick_facts s cs c 0 "repeat" b elapsed Ho Hcs Hi Hc Hpt Hst)
    as (x0 & r & s' & t & Hx0 & Hrun & Hfacts).
  cbv zeta in Hfacts. rewrite Hp in Hfacts, Hx0. cbn [length] in Hfacts, Hx0.
  assert (Hne : forall N, (1 <= N)%nat -> near_end 1 N 0 = true).
  { intros N H. unfold near_end. apply Z.leb_le. lia. }
  assert (Hri : forall N, (1 <= N)%nat -> resolved_index "repeat" 1 N 0 = 1%nat).
  { intros N H. unfold resolved_index. now rewrite (Hne N H). }
  assert (Hrs : forall N, raises_stop "repeat" 1 N 0 = false).
  { intros N. unfold raises_stop. apply andb_false_r. }
  rewrite (Hri _ HN) in Hfacts, Hx0. rewrite (Hri _ (HN' _ _ _)) in Hfacts.
  rewrite !Hrs, !orb_false_r in Hfacts.
  destruct Hfacts as (_ & Hpub & _ & _ & _ & _ & _ & _ & _ & _ & Hsend).
  cbn [nth_error] in Hsend. destruct Hsend as (-> & Hdg).
  exists x0, s', t. split; [exact Hrun|]. split; [|exact Hdg].
  rewrite Hpub. reflexivity.
Qed.

(** X12.  With the horizon length [scale_N] gives, a path of at most ten
    points under "stop" is always within one horizon of its end: the
    first tick publishes the zero command and raises the stop flag,
    wherever the robot is. *)
Theorem short_path_stops_at_once (s : Node C) (cs : Pose) (c : C) (b : bool)
    (elapsed : R) :
  odom_received s = Some true ->
  current_state s = Some cs ->
  controller s = Some c ->
  path_type s = Some "stop"%string ->
  stop s = Some b ->
  reference_trajectory s <> [] ->
  (length (reference_trajectory s) <= 10)%nat ->
  ctrl_N c = scale_N (reference_trajectory s) ->
  exists s' t,
    control_loop elapsed s = (Ok tt, s', t) /\
    published t = [(0, 0)] /\
    stop s' = Some true.
Proof.
  intros Ho Hcs Hc Hpt Hst Hne HL HN.
  destruct (closest_index_total (reference_trajectory s) cs Hne) as [i Hi].
  destruct (tick_under_stop_policy s cs c i b elapsed Ho Hcs Hi Hc Hpt Hst)
    as (s' & t & Hrun & _ & _ & _ & _ & _ & Hzero).
  destruct Hzero as [H1 H2].
  { apply orb_true_iff. right. unfold near_end. apply Z.leb_le.
    pose proof (scale_N_at_least_10 (reference_trajectory s)) as H10.
    rewrite HN. lia. }
  exists s', t. repeat split; assumption.
Qed.

(** X13.  On a path of two points or more (or a non-empty path under a
    policy other than "repeat") [find_closest_point_index] returns a
    valid index of the path, leaves the path alone, and changes the stop
    flag only by raising it under "stop". *)
Theorem returned_index_in_range (s : Node C) (cs : Pose) (c : C) (pt : string) :
  current_state s = Some cs ->
  controller s = Some c ->
  path_type s = Some pt ->
  (2 <= length (reference_trajectory s))%nat
  \/ (pt <> "repeat"%string /\ reference_trajectory s <> []) ->
  exists idx s' t,
    find_closest_point_index (current_state s) s = (Ok idx, s', t) /\
    (idx < length (reference_trajectory s))%nat /\
    reference_trajectory s' = reference_trajectory s /\
    (stop s' = stop s \/ stop s' = Some true /\ pt = "stop"%string).
Proof.
  intros Hcs Hc Hpt Hcase.
  assert (Hne : reference_trajectory s <> []).
  { destruct Hcase as [H|[_ H]]; [|exact H].
    intros E. rewrite E in H. simpl in H. lia. }
  destruct (closest_index_total (reference_trajectory s) cs Hne) as [i Hi].
  destruct (closest_index_spec _ _ _ Hi) as (HiL & _).
  rewrite Hcs, (find_run s cs c i pt Hi Hc Hpt). cbv zeta.
  destruct (after_search_fields pt (length (reference_trajectory s)) (ctrl_N c) i s)
    as (Hr & _ & _ & _ & _ & _ & _ & _ & Hstop).
  eexists _, _, _. split; [reflexivity|]. split; [|split; [exact Hr|]].
  - destruct Hcase as [HL|[Hnr _]]; [now apply resolved_index_bound|].
    unfold resolved_index.
    destruct (near_end _ _ _); [|exact HiL].
    destruct (String.eqb pt "stop"); [exact HiL|].
    destruct (String.eqb_spec pt "repeat"); [contradiction|exact HiL].
  - rewrite Hstop. unfold raises_stop.
    destruct (near_end _ _ _); [|now left].
    destruct (String.eqb_spec pt "stop"); [right; now split|now left].
Qed.

End Edges.

(** X14.  The horizon wraps around the path: [L] entries further on it
    shows the same position again, with an orientation that differs by
    whole turns only. *)
Theorem horizon_wraps_around (path : list Pose) (i N k : nat) (d : Pose) :
  path <> [] ->
  (k + length path <= N)%nat ->
  let h := horizon path i N in
  px (nth (k + length path) h d) = px (nth k h d) /\
  py (nth (k + length path) h d) = py (nth k h d) /\
  exists turns : Z,
    ptheta (nth (k + length path) h d) = ptheta (nth k h d) + 2 * PI * IZR turns.
Proof.
  intros Hne Hk h. unfold h.
  assert (HL : length path <> 0%nat) by (destruct path; [congruence|discriminate]).
  rewrite !horizon_nth by lia. cbn [px py ptheta].
  assert (Hmod : ((i + (k + length path)) mod length path
                  = (i + k) mod length path)%nat).
  { replace (i + (k + length path))%nat with (i + k + 1 * length path)%nat by lia.
    apply Nat.Div0.mod_add. }
  rewrite Hmod. split; [reflexivity|]. split; [reflexivity|].
  destruct (unwrap_turns (map ptheta (window path i N)) (k + length path)) as [z1 H1].
  { rewrite length_map, window_length. lia. }
  destruct (unwrap_turns (map ptheta (window path i N)) k) as [z2 H2].
  { rewrite length_map, window_length. lia. }
  rewrite H1, H2.
  rewrite !(map_nth_in ptheta _ (mkPose 0 0 0)) by (rewrite window_length; lia).
  rewrite !window_nth by lia. rewrite Hmod.
  exists (z1 - z2)%Z. rewrite minus_IZR. ring.
Qed.

(** [np.unwrap] leaves a continuous column alone. *)
Lemma ph_correct_within dd : Rabs dd <= PI -> Np.ph_correct dd = 0.
Proof.
  intros H. pose proof PI_RGT_0 as Hpi.
  destruct (Rle_lt_or_eq_dec _ _ H) as [Hlt|Heq]; [now apply ph_correct_small|].
  unfold Np.ph_correct. replace (2 * PI / 2) with PI by lra.
  assert (E : Np.ltb (Rabs dd) PI = false) by (apply ltb_false; lra).
  rewrite E. unfold Np.mod_.
  destruct (Rcase_abs dd) as [Hneg|Hpos].
  - rewrite Rabs_left in Heq by exact Hneg.
    assert (Hdd : dd = - PI) by lra. subst dd.
    assert (Hi : Int_part ((- PI - - PI) / (2 * PI)) = 0%Z).
    { symmetry. apply Int_part_spec.
      replace ((- PI - - PI) / (2 * PI)) with 0 by (field; lra). simpl. lra. }
    rewrite Hi.
    assert (E2 : Np.ltb 0 (- PI) = false) by (apply ltb_false; lra).
    rewrite E2, andb_false_r. simpl. lra.
  - rewrite Rabs_right in Heq by exact Hpos. subst dd.
    assert (Hi : Int_part ((PI - - PI) / (2 * PI)) = 1%Z).
    { symmetry. apply Int_part_spec.
      replace ((PI - - PI) / (2 * PI)) with 1 by (field; lra). simpl. lra. }
    rewrite Hi.
    assert (E1 : Np.eqb (PI - - PI - 2 * PI * 1 + - PI) (- PI) = true)
      by (apply eqb_true; lra).
    assert (E2 : Np.ltb 0 PI = true) by (apply ltb_true; lra).
    rewrite E1, E2. simpl. lra.
Qed.

Lemma unwrap_tail_fixed rest : forall prev acc,
  acc = 0 -> steps_le PI prev rest ->
  Np.add rest (Np.cumsum_from acc (map Np.ph_correct (Np.diff (prev :: rest))))
  = rest.
Proof.
  induction rest as [|x t IH]; intros prev acc Hacc Hs; [reflexivity|].
  destruct Hs as [H1 H2]. rewrite unwrap_tail_cons.
  assert (Hz : acc + Np.ph_correct (x - prev) = 0).
  { rewrite (ph_correct_within _ H1). lra. }
  rewrite Hz, (IH x 0 eq_refl H2). f_equal. lra.
Qed.

Lemma unwrap_fixed p0 rest :
  steps_le PI p0 rest -> Np.unwrap (p0 :: rest) = p0 :: rest.
Proof.
  intros H. unfold Np.unwrap, Np.cumsum. f_equal. now apply unwrap_tail_fixed.
Qed.

Lemma unwrap_output_steps p0 rest :
  exists rest', Np.unwrap (p0 :: rest) = p0 :: rest' /\ steps_le PI p0 rest'.
Proof.
  unfold Np.unwrap, Np.cumsum. eexists. split; [reflexivity|].
  pose proof (unwrap_tail_steps rest p0 0) as H. now rewrite Rplus_0_r in H.
Qed.

Lemma unwrap_is_idempotent (p : list R) :
  Np.unwrap (Np.unwrap p) = Np.unwrap p.
Proof.
  destruct p as [|p0 rest]; [reflexivity|].
  destruct (unwrap_output_steps p0 rest) as (rest' & -> & Hs).
  now apply unwrap_fixed.
Qed.

Lemma steps_le_of_nth bound l : forall o,
  (forall k, (S k < length (o :: l))%nat ->
     Rabs (nth (S k) (o :: l) 0 - nth k (o :: l) 0) <= bound) ->
  steps_le bound o l.
Proof.
  induction l as [|y t IH]; intros o H; [exact I|]. split.
  - apply (H 0%nat). simpl. lia.
  - apply IH. intros k Hk. apply (H (S k)). simpl in *. lia.
Qed.

Lemma assign_theta_same rows :
  assign_theta rows (map ptheta rows) = rows.
Proof.
  induction rows as [|[x y th] rows IH]; [reflexivity|].
  cbn [map assign_theta px py ptheta]. now rewrite IH.
Qed.

Lemma assign_theta_column rows : forall col,
  length rows = length col -> map ptheta (assign_theta rows col) = col.
Proof.
  induction rows as [|p ps IH]; intros [|th ths] H; simpl in *; try lia;
    [reflexivity|].
  f_equal. apply IH. lia.
Qed.


(** X15.  When the orientations along the window already differ by at
    most pi from one entry to the next, the horizon is the window of
    path points itself: nothing is adjusted. *)
Theorem horizon_of_continuous_window (path : list Pose) (i N : nat) :
  (forall k, (k < N)%nat ->
     Rabs (ptheta (nth (S k) (window path i N) (mkPose 0 0 0))
           - ptheta (nth k (window path i N) (mkPose 0 0 0))) <= PI) ->
  horizon path i N = window path i N.
Proof.
  intros H. unfold horizon.
  assert (Hfix : Np.unwrap (map ptheta (window path i N))
                 = map ptheta (window path i N)).
  { pose proof (window_length path i N) as HL.
    destruct (window path i N) as [|w0 ws] eqn:Ew; [reflexivity|].
    cbn [map]. apply unwrap_fixed. apply steps_le_of_nth.
    intros k Hk. cbn [length] in Hk, HL. rewrite length_map in Hk.
    change (ptheta w0 :: map ptheta ws) with (map ptheta (w0 :: ws)).
    rewrite !(map_nth_in ptheta _ (mkPose 0 0 0)) by (cbn [length]; lia).
    apply H. lia. }
  rewrite Hfix. apply assign_theta_same.
Qed.

Section LoadCompose.
Variable float : string -> option R.

(** X19.  Loading composes: the rows [a ++ b] under a header load as a
    path exactly when [a] and [b] each load under that header, and the
    path is then the two paths one after the other. *)
Theorem load_trajectory_app (header : list string)
    (a b : list (list string)) (path : list Pose) :
  load_trajectory float (header :: a ++ b) = Ok path <->
  exists pa pb,
    path = pa ++ pb /\
    load_trajectory float (header :: a) = Ok pa /\
    load_trajectory float (header :: b) = Ok pb.
Proof.
  cbn [load_trajectory]. rewrite parse_rows_ok. split.
  - intros H. apply Forall2_app_inv_l in H.
    destruct H as (pa & pb & Ha & Hb & ->).
    exists pa, pb. rewrite !parse_rows_ok. now repeat split.
  - intros (pa & pb & -> & Ha & Hb).
    apply parse_rows_ok in Ha; apply parse_rows_ok in Hb.
    now apply Forall2_app.
Qed.

End LoadCompose.

Section Telemetry.
Context {C : Type} {CC : ControllerClass C} {FP : Doubles}.

(** X20.  Under "repeat", near the end of a path of two points or more
    (with a solver that keeps its horizon length), the datagram reports
    the robot's position, the solve time, and [path[1]] as the closest
    point, whichever point is nearest. *)
Theorem telemetry_reports_index_1_under_repeat (s : Node C) (cs : Pose)
    (c : C) (i : nat) (b : bool) (elapsed : R) :
  odom_received s = Some true ->
  current_state s = Some cs ->
  controller s = Some c ->
  path_type s = Some "repeat"%string ->
  stop s = Some b ->
  closest_index (reference_trajectory s) cs = Some i ->
  (Z.of_nat (length (reference_trajectory s)) - Z.of_nat (ctrl_N c)
   <= Z.of_nat i)%Z ->
  (2 <= length (reference_trajectory s))%nat ->
  (forall x h u, ctrl_N (fst (ctrl_solve c x h u)) = ctrl_N c) ->
  exists s' t d,
    control_loop elapsed s = (Ok tt, s', t) /\
    datagrams t = [d] /\
    actual_x d = px cs /\ actual_y d = py cs /\
    closest_x d = px (nth 1 (reference_trajectory s) (mkPose 0 0 0)) /\
    closest_y d = py (nth 1 (reference_trajectory s) (mkPose 0 0 0)) /\
    optimisation_time d = elapsed.
Proof.
  intros Ho Hcs Hc Hpt Hst Hi Hend HL HN.
  destruct (tick_facts s cs c i "repeat" b elapsed Ho Hcs Hi Hc Hpt Hst)
    as (x0 & r & s' & t & Hx0 & Hrun & Hfacts).
  cbv zeta in Hfacts.
  destruct Hfacts as (_ & _ & _ & _ & _ & _ & _ & _ & _ & _ & Hsend).
  rewrite HN in Hsend.
  assert (Hri : resolved_index "repeat" (length (reference_trajectory s)) (ctrl_N c) i
                = 1%nat).
  { unfold resolved_index, near_end. apply Z.leb_le in Hend. now rewrite Hend. }
  rewrite Hri in Hsend.
  destruct (nth_error (reference_trajectory s) 1) as [cp|] eqn:Hcp;
    [|apply nth_error_None in Hcp; lia].
  destruct Hsend as (-> & Hdg & _).
  eexists _, _, _. split; [exact Hrun|]. split; [exact Hdg|].
  cbn. rewrite (nth_error_nth _ _ _ Hcp). repeat split.
Qed.

End Telemetry.

(** The theorems above at the fixtures. *)
Lemma path3_thetas j : ptheta (nth j path3 (mkPose 0 0 0)) = 0.
Proof. destruct j as [|[|[|j]]]; try reflexivity. destruct j; reflexivity. Qed.

Lemma first_pose_accepted : ~ at_origin first_pose.
Proof. intros [H _]. cbn in H. lra. Qed.

Lemma euler_of_yaw_quaternion_witness :
  euler_from_quaternion (yaw_quaternion 1) = (0, 0, 1).
Proof.
  apply (euler_of_yaw_quaternion 1). pose proof PI_gt_3. lra.
Defined.

Lemma odom_callback_accepts_witness :
  exists s',
    odom_callback first_pose (tracking_node "repeat" false) = (Ok tt, s', []) /\
    current_state s' = Some (pose_of first_pose) /\
    - PI < ptheta (pose_of first_pose) <= PI /\
    odom_received s' = Some true /\
    initial_position_received s' = true /\
    initial_position s'
      = (if initial_position_received (tracking_node "repeat" false)
         then initial_position (tracking_node "repeat" false)
         else Some (pose_of first_pose)) /\
    previous_control s' = previous_control (tracking_node "repeat" false) /\
    reference_trajectory s' = reference_trajectory (tracking_node "repeat" false) /\
    params s' = params (tracking_node "repeat" false) /\
    PATH_TYPE s' = PATH_TYPE (tracking_node "repeat" false) /\
    controller s' = controller (tracking_node "repeat" false) /\
    path_type s' = path_type (tracking_node "repeat" false) /\
    stop s' = stop (tracking_node "repeat" false).
Proof.
  exact (odom_callback_accepts first_pose (tracking_node "repeat" false)
           first_pose_accepted).
Defined.


Lemma empty_path_crashes_witness :
  find_closest_point_index (Some pose1) pathless_node
    = (Raise IndexError, pathless_node, []) /\
  control_loop (1 / 10) pathless_node = (Raise IndexError, pathless_node, []) /\
  run (TimerFired (1 / 10) :: drive_away) (Spinning, pathless_node)
    = (Crashed IndexError, pathless_node, []).
Proof.
  exact (empty_path_crashes_first_tick pathless_node pose1 (1 / 10) drive_away
           eq_refl eq_refl eq_refl).
Defined.

Lemma single_point_repeat_crashes_witness :
  exists (x0 : Pose) s' t,
    control_loop (1 / 10) lone_point_node = (Raise IndexError, s', t) /\
    published t = [(1 / 2, 0)] /\
    datagrams t = [].
Proof.
  refine (single_point_repeat_crashes lone_point_node pose1 pose1 10%nat false
            (1 / 10) eq_refl eq_refl eq_refl eq_refl eq_refl eq_refl _ _).
  - cbn. lia.
  - intros x h u. cbn. lia.
Defined.

Lemma short_path_stops_witness :
  exists s' t,
    control_loop (1 / 10) (tracking_node "stop" false) = (Ok tt, s', t) /\
    published t = [(0, 0)] /\
    stop s' = Some true.
Proof.
  refine (short_path_stops_at_once (tracking_node "stop" false) pose1 10%nat
            false (1 / 10) eq_refl eq_refl eq_refl eq_refl eq_refl _ _ eq_refl).
  - discriminate.
  - cbn. lia.
Defined.

Lemma returned_index_in_range_witness :
  exists idx s' t,
    find_closest_point_index (current_state (tracking_node "repeat" false))
                             (tracking_node "repeat" false)
    = (Ok idx, s', t) /\
    (idx < length (reference_trajectory (tracking_node "repeat" false)))%nat /\
    reference_trajectory s' = reference_trajectory (tracking_node "repeat" false) /\
    (stop s' = stop (tracking_node "repeat" false)
     \/ stop s' = Some true /\ "repeat"%string = "stop"%string).
Proof.
  refine (returned_index_in_range (tracking_node "repeat" false) pose1 10%nat
            "repeat" eq_refl eq_refl eq_refl _).
  left. cbn. lia.
Defined.

Lemma horizon_wraps_around_witness :
  px (nth (2 + length path3) (horizon path3 1 10) pose0)
    = px (nth 2 (horizon path3 1 10) pose0) /\
  py (nth (2 + length path3) (horizon path3 1 10) pose0)
    = py (nth 2 (horizon path3 1 10) pose0) /\
  exists turns : Z,
    ptheta (nth (2 + length path3) (horizon path3 1 10) pose0)
    = ptheta (nth 2 (horizon path3 1 10) pose0) + 2 * PI * IZR turns.
Proof.
  refine (horizon_wraps_around path3 1 10 2 pose0 _ _).
  - discriminate.
  - cbn. lia.
Defined.

Lemma horizon_of_continuous_window_witness :
  horizon path3 1 10 = window path3 1 10.
Proof.
  apply (horizon_of_continuous_window path3 1 10).
  intros k Hk. rewrite !window_nth by lia. rewrite !path3_thetas.
  pose proof PI_RGT_0. apply Rabs_le. lra.
Defined.

Lemma telemetry_reports_index_1_witness :
  exists s' t d,
    control_loop (1 / 10) (tracking_node "repeat" false) = (Ok tt, s', t) /\
    datagrams t = [d] /\
    actual_x d = px pose1 /\ actual_y d = py pose1 /\
    closest_x d = px (nth 1 path3 (mkPose 0 0 0)) /\
    closest_y d = py (nth 1 path3 (mkPose 0 0 0)) /\
    optimisation_time d = 1 / 10.
Proof.
  refine (telemetry_reports_index_1_under_repeat (tracking_node "repeat" false)
            pose1 10%nat 1 false (1 / 10) eq_refl eq_refl eq_refl eq_refl
            eq_refl path3_closest _ _ _).
  - cbn. lia.
  - cbn. lia.
  - intros x h u. reflexivity.
Defined.
